(** * PassiveBuzzerMelodyPlayer: melody compilation and playback scheduling

    A shallow embedding of the melody builder ([MelodyBuilder]), the
    non-blocking timer ([Delay]) and the playback state machine
    ([BuzzerPlayer]), followed by the properties of the design document
    that are checked against them.

    Conventions of the embedding:
    - [uintN_t] values are integers of [Z]; every arithmetic result that
      the C++ stores in a [uint32_t] / [unsigned long] is reduced with
      [u32], i.e. modulo 2^32.  Function arguments are values of their
      C++ parameter types; theorems name the type ranges they rely on.
    - [size_t] counters ([length_], [capacity_], [count],
      [melodyStepIdx_]) are [nat]: [length_] is incremented only below
      [capacity_], and the step index only while it is below [count] (or
      zero), so neither can wrap.
    - a C++ pointer to an array is [option (list A)]: [None] is
      [nullptr], [Some mem] is the readable memory found at the pointer.
    - every method that ends in [return *this] is a function from the
      builder to the updated builder; chaining is function composition.
    - logging ([LOGD], [LOGI], [LOGE]) produces no state; only the
      reads its arguments perform are kept. *)

From Stdlib Require Import ZArith Lia Bool List.
From stdpp Require Import base list.
Import ListNotations.

Local Open Scope Z_scope.

(** ** Machine integers *)

Definition u32 (x : Z) : Z := x mod 2 ^ 32.

Definition UINT8_MAX : Z := 255.
Definition UINT16_MAX : Z := 65535.
Definition UINT32_MAX : Z := 4294967295.

Definition is_u8 (x : Z) : Prop := 0 <= x <= UINT8_MAX.
Definition is_u16 (x : Z) : Prop := 0 <= x <= UINT16_MAX.

(** ** core/Types.h *)

Record Step : Type := mkStep { freqHz : Z; durationMs : Z }.

(** [const Step* steps; size_t count]. *)
Record Melody : Type := mkMelody { steps : option (list Step); count : nat }.

Record MelodyContext : Type := mkContext { bpm : Z; gapMs : Z }.

(** [MelodyContext{}]: the default member initialisers. *)
Definition defaultContext : MelodyContext := mkContext 120 0.

Definition MIN_PLAY_MS : Z := 10.

(** ** music/Score.h *)

Record ScoreNote : Type := mkNote { hz : Z; denom : Z }.

(** [const ScoreNote* data; uint16_t count]. *)
Record ScoreView : Type :=
  mkView { data : option (list ScoreNote); view_count : nat }.

(** ** FSM/States.h *)

Inductive State : Type := IDLE | START_STEP | PLAYING_STEP | ADVANCE_STEP.

(** ** MelodyBuilder *)

Module Builder.

Record MelodyBuilder : Type := mkBuilder {
  buffer_ : option (list Step);
  capacity_ : nat;
  length_ : nat;
  ctx_ : MelodyContext;
  ok_ : bool
}.

Definition set_ok (v : bool) (b : MelodyBuilder) : MelodyBuilder :=
  mkBuilder (buffer_ b) (capacity_ b) (length_ b) (ctx_ b) v.

Definition set_ctx (c : MelodyContext) (b : MelodyBuilder) : MelodyBuilder :=
  mkBuilder (buffer_ b) (capacity_ b) (length_ b) c (ok_ b).

Definition is_null {A : Type} (p : option A) : bool :=
  match p with None => true | Some _ => false end.

(** [ok_((buffer_ != nullptr) && (capacity_ > 0))]. *)
Definition capacity_check (buffer : option (list Step)) (capacity : nat) : bool :=
  negb (is_null buffer) && negb (Nat.eqb capacity 0).

Definition construct (buffer : option (list Step)) (capacity : nat) : MelodyBuilder :=
  mkBuilder buffer capacity 0%nat defaultContext (capacity_check buffer capacity).

Definition clearMelody (toDefault : bool) (b : MelodyBuilder) : MelodyBuilder :=
  mkBuilder (buffer_ b) (capacity_ b) 0%nat
            (if toDefault then defaultContext else ctx_ b)
            (capacity_check (buffer_ b) (capacity_ b)).

Definition setTempo (bpm' : Z) (b : MelodyBuilder) : MelodyBuilder :=
  if (bpm' <=? 0) || (bpm' >? 300) then set_ok false b
  else set_ctx (mkContext bpm' (gapMs (ctx_ b))) b.

Definition gap (gapMs' : Z) (b : MelodyBuilder) : MelodyBuilder :=
  if gapMs' >? 1000 then set_ok false b
  else set_ctx (mkContext (bpm (ctx_ b)) gapMs') b.

(** [buffer_[length_++] = Step{hz, durationMs}] under the capacity guard.
    The store is the list update at index [length_] of the memory behind
    [buffer_]; a store through [nullptr], or past the memory the caller
    really supplied, is undefined in C++ and leaves the modelled memory
    as it is. *)
Definition pushStep_ (hz' durationMs' : Z) (b : MelodyBuilder) : bool * MelodyBuilder :=
  if Nat.ltb (length_ b) (capacity_ b) then
    (true,
     mkBuilder ((fun mem => <[length_ b := mkStep hz' durationMs']> mem) <$> buffer_ b)
               (capacity_ b) (S (length_ b)) (ctx_ b) (ok_ b))
  else (false, set_ok false b).

Definition denomToMs_ (denom' bpm' : Z) (b : MelodyBuilder) : Z * MelodyBuilder :=
  if (denom' =? 0) || (bpm' =? 0) then (0, set_ok false b)
  else
    let numerator := u32 (60000 * 4) in
    let divisor := u32 (bpm' * denom') in
    let noteMs := numerator / divisor in
    ((if noteMs =? 0 then 1 else noteMs), b).

Definition addNote (hz' denom' : Z) (b : MelodyBuilder) : MelodyBuilder :=
  let '(durationMs', b1) := denomToMs_ denom' (bpm (ctx_ b)) b in
  if durationMs' =? 0 then set_ok false b1
  else if hz' =? 0 then snd (pushStep_ hz' durationMs' b1)
  else
    let playMs := durationMs' in
    let restMs := 0 in
    let '(playMs, restMs) :=
      if (hz' >? 0) && (gapMs (ctx_ b1) >? 0) && (playMs >? MIN_PLAY_MS) then
        let maxGap := u32 (playMs - MIN_PLAY_MS) in
        let restMs := if gapMs (ctx_ b1) >? maxGap then maxGap else gapMs (ctx_ b1) in
        (u32 (playMs - restMs), restMs)
      else (playMs, restMs) in
    let b2 := snd (pushStep_ hz' playMs b1) in
    if restMs >? 0 then snd (pushStep_ 0 restMs b2) else b2.

Definition addRest (denom' : Z) (b : MelodyBuilder) : MelodyBuilder :=
  let '(durationMs', b1) := denomToMs_ denom' (bpm (ctx_ b)) b in
  snd (pushStep_ 0 durationMs' b1).

Definition addToneMs (hz' durationMs' : Z) (b : MelodyBuilder) : MelodyBuilder :=
  snd (pushStep_ hz' durationMs' b).

Definition addRestMs (durationMs' : Z) (b : MelodyBuilder) : MelodyBuilder :=
  snd (pushStep_ 0 durationMs' b).

(** [avr_algorithms::for_each_indexed(buffer, buffer_size, func)]:
    [func] is called with the indices [0 .. buffer_size-1] in order; the
    bound is the value of [buffer_size] at the call. *)
Definition for_each_indexed {S : Type} (buffer_size : nat)
    (func : nat -> S -> S) (s : S) : S :=
  fold_left (fun acc i => func i acc) (seq 0 buffer_size) s.

(** [appendScore(const ScoreNote* score, size_t count)].  A note outside
    the memory behind [score] cannot be read; the model skips it. *)
Definition appendScore (score : option (list ScoreNote)) (count' : nat)
    (b : MelodyBuilder) : MelodyBuilder :=
  if is_null score && Nat.ltb 0 count' then set_ok false b
  else
    for_each_indexed count'
      (fun index b' =>
         if ok_ b' then
           match score ≫= (fun mem => mem !! index) with
           | Some note => addNote (hz note) (denom note) b'
           | None => b'
           end
         else b')
      b.

(** How the body of a member function declared [MelodyBuilder&] ends:
    with [return *this], or by running into its closing brace with no
    [return] at all.  In the second case no reference comes back and the
    call is undefined in C++; [this] is the builder object as the
    statements of the body left it. *)
Inductive Ending : Type :=
| ReturnsThis (this : MelodyBuilder)
| NoReturn (this : MelodyBuilder).

Definition object_of (e : Ending) : MelodyBuilder :=
  match e with
  | ReturnsThis this => this
  | NoReturn this => this
  end.

(** [appendScore(score::ScoreView view)]: the body is the one statement
    [appendScore(view.data, view.count);] and has no [return]. *)
Definition appendScoreView (view : ScoreView) (b : MelodyBuilder) : Ending :=
  NoReturn (appendScore (data view) (view_count view) b).

(** [appendScore(Reader&& reader, size_t count)] of MelodyBuilder.h:
    the loop runs over [buffer_] and [length_]; [count] is not used. *)
Definition appendScoreReader (reader : nat -> ScoreNote) (count' : nat)
    (b : MelodyBuilder) : MelodyBuilder :=
  for_each_indexed (length_ b)
    (fun index b' =>
       if ok_ b' then
         let note := reader index in
         addNote (hz note) (denom note) b'
       else b')
    b.

Definition compose (func : MelodyBuilder -> MelodyBuilder) (b : MelodyBuilder)
  : MelodyBuilder := func b.

Definition build (b : MelodyBuilder) : Melody := mkMelody (buffer_ b) (length_ b).

Definition ok (b : MelodyBuilder) : bool := ok_ b.

Definition size (b : MelodyBuilder) : nat := length_ b.

End Builder.

(** ** Sequences of builder calls *)

Module Calls.
Import Builder.

(** One call of the fluent interface.  [compose(fn)] runs the calls [fn]
    makes on the builder, so a composed group is the sequence of its
    calls. *)
Inductive call : Type :=
| CClearMelody (toDefault : bool)
| CSetTempo (bpm' : Z)
| CGap (gapMs' : Z)
| CAddNote (hz' denom' : Z)
| CAddRest (denom' : Z)
| CAddToneMs (hz' durationMs' : Z)
| CAddRestMs (durationMs' : Z)
| CAppendScore (score : option (list ScoreNote)) (count' : nat)
| CAppendScoreView (view : ScoreView)
| CAppendScoreReader (reader : nat -> ScoreNote) (count' : nat).

(** The builder object after a call.  For the ScoreView overload of
    [appendScore], which never returns a reference (see
    [Builder.appendScoreView]), this is the object as its body left it;
    nothing is said of what a caller gets back from it. *)
Definition exec (c : call) (b : MelodyBuilder) : MelodyBuilder :=
  match c with
  | CClearMelody d => clearMelody d b
  | CSetTempo t => setTempo t b
  | CGap g => gap g b
  | CAddNote f d => addNote f d b
  | CAddRest d => addRest d b
  | CAddToneMs f ms => addToneMs f ms b
  | CAddRestMs ms => addRestMs ms b
  | CAppendScore s n => appendScore s n b
  | CAppendScoreView v => object_of (appendScoreView v b)
  | CAppendScoreReader r n => appendScoreReader r n b
  end.

Definition run (cs : list call) (b : MelodyBuilder) : MelodyBuilder :=
  fold_left (fun acc c => exec c acc) cs b.

(** The calls that append compiled steps: [addNote], [addRest],
    [addToneMs], [addRestMs] and the [appendScore] overloads. *)
Definition mutating (c : call) : bool :=
  match c with
  | CClearMelody _ | CSetTempo _ | CGap _ => false
  | _ => true
  end.

(** The note lengths of music/Durations.h. *)
Definition note_value (d : Z) : Prop := In d [1; 2; 4; 8; 16; 32].

(** The calls that hand at least one step to [pushStep_] whatever the
    state of the builder: the raw calls, [addRest], and [addNote] with a
    non-zero denominator (the tempo of a builder is never zero, see
    [tempo_set]). *)
Definition appends_step (c : call) : bool :=
  match c with
  | CAddNote _ d => negb (d =? 0)
  | CAddRest _ | CAddToneMs _ _ | CAddRestMs _ => true
  | _ => false
  end.

(** The tempo stored in the context is a tempo [setTempo] accepts, or
    the default. *)
Definition tempo_set (b : MelodyBuilder) : Prop := 1 <= bpm (ctx_ b) <= 300.

(** The caller gave the builder a real array of at least [capacity_]
    steps. *)
Definition buffer_backed (b : MelodyBuilder) : Prop :=
  exists mem, buffer_ b = Some mem /\ (capacity_ b <= length mem)%nat.

(** The memory cell at index [i] counted from the buffer pointer. *)
Definition cell (b : MelodyBuilder) (i : nat) : option Step :=
  buffer_ b ≫= (fun mem => mem !! i).

(** [b] still respects the bounds of the buffer handed to [b0]: same
    capacity, length within it, and every memory cell from the capacity
    onwards as [b0] had it. *)
Definition bounded_by (b0 b : MelodyBuilder) : Prop :=
  capacity_ b = capacity_ b0
  /\ (length_ b <= capacity_ b0)%nat
  /\ forall i, (capacity_ b0 <= i)%nat -> cell b i = cell b0 i.

End Calls.

(** ** Timer/Delay *)

Module Timer.

Record Delay : Type := mkDelay {
  _delayTime : Z;
  _previousTime : Z;
  _disarm : bool
}.

(** Every function that calls [micros()] takes the value it read. *)

Definition construct (delayTime : Z) : Delay := mkDelay delayTime 0 false.

Definition init0 (micros : Z) (d : Delay) : Delay :=
  mkDelay (_delayTime d) micros false.

Definition init (micros : Z) (delayTime : Z) (d : Delay) : Delay :=
  mkDelay delayTime micros false.

Definition restartTimer (micros : Z) (d : Delay) : Delay :=
  mkDelay (_delayTime d) micros (_disarm d).

(** [now] is read on entry, [micros'] inside [restartTimer]. *)
Definition isDelayTimeElapsed (now micros' : Z) (d : Delay) : bool * Delay :=
  if negb (_disarm d) then
    if u32 (now - _previousTime d) >=? _delayTime d
    then (true, restartTimer micros' d)
    else (false, d)
  else (false, d).

Definition stopDelay (d : Delay) : Delay :=
  mkDelay (_delayTime d) (_previousTime d) true.

Definition updateDelayTime (newDelayTime : Z) (d : Delay) : Delay :=
  mkDelay newDelayTime (_previousTime d) (_disarm d).

End Timer.

(** ** BuzzerPlayer *)

Module Player.
Import Timer.

(** Calls received by the [IBuzzerBackend], oldest first. *)
Inductive HwCall : Type := HwStart (frequencyHz : Z) | HwStop.

Record BuzzerPlayer : Type := mkPlayer {
  hwBackend_ : list HwCall;
  melody_ : option Melody;
  melodyStepIdx_ : nat;
  looping_ : bool;
  stepDelay_ : Delay;
  state_ : State
}.

(** A read the C++ leaves undefined: through the cleared melody pointer,
    or of a step that is not in the memory behind [steps]. *)
Inductive Fault : Type := NullMelody | NoSuchStep.

Definition construct (micros : Z) : BuzzerPlayer :=
  mkPlayer [] None 0%nat false (init0 micros (Timer.construct 0)) IDLE.

Definition state_eqb (a b : State) : bool :=
  match a, b with
  | IDLE, IDLE | START_STEP, START_STEP
  | PLAYING_STEP, PLAYING_STEP | ADVANCE_STEP, ADVANCE_STEP => true
  | _, _ => false
  end.

Definition isPlaying (p : BuzzerPlayer) : bool := negb (state_eqb (state_ p) IDLE).

Definition stop (p : BuzzerPlayer) : BuzzerPlayer :=
  mkPlayer (hwBackend_ p ++ [HwStop]) None 0%nat false
           (stopDelay (stepDelay_ p)) IDLE.

Definition play (melody : Melody) (loop : bool) (p : BuzzerPlayer) : BuzzerPlayer :=
  let p1 := if isPlaying p then stop p else p in
  mkPlayer (hwBackend_ p1) (Some melody) 0%nat loop (stepDelay_ p1) START_STEP.

(** [melody_->steps[melodyStepIdx_]]. *)
Definition getCurrentStep (p : BuzzerPlayer) : Fault + Step :=
  match melody_ p with
  | None => inl NullMelody
  | Some m =>
      match steps m ≫= (fun mem => mem !! melodyStepIdx_ p) with
      | Some s => inr s
      | None => inl NoSuchStep
      end
  end.

Definition set_state (s : State) (p : BuzzerPlayer) : BuzzerPlayer :=
  mkPlayer (hwBackend_ p) (melody_ p) (melodyStepIdx_ p) (looping_ p)
           (stepDelay_ p) s.

Definition advanceToNextStep (p : BuzzerPlayer) : BuzzerPlayer :=
  let p1 := mkPlayer (hwBackend_ p) (melody_ p) (S (melodyStepIdx_ p))
                     (looping_ p) (stepDelay_ p) (state_ p) in
  match melody_ p1 with
  | Some m =>
      if Nat.leb (count m) (melodyStepIdx_ p1) then
        if looping_ p1 then
          mkPlayer (hwBackend_ p1) (melody_ p1) 0%nat (looping_ p1)
                   (stepDelay_ p1) START_STEP
        else stop p1
      else set_state START_STEP p1
  | None => set_state START_STEP p1
  end.

(** One call of [update()].  [now] is the first [micros()] reading of
    the call and [micros'] the second one, taken by [restartTimer] when
    the step's time has elapsed.  In [PLAYING_STEP] the log statement
    after the unbraced [if] runs on every call and reads the current
    step. *)
Definition update (now micros' : Z) (p : BuzzerPlayer) : Fault + BuzzerPlayer :=
  match state_ p with
  | IDLE => inr p
  | START_STEP =>
      match getCurrentStep p with
      | inl f => inl f
      | inr mStep =>
          let hw := if freqHz mStep >? 0
                    then hwBackend_ p ++ [HwStart (freqHz mStep)]
                    else hwBackend_ p ++ [HwStop] in
          inr (mkPlayer hw (melody_ p) (melodyStepIdx_ p) (looping_ p)
                        (init now (u32 (durationMs mStep * 1000)) (stepDelay_ p))
                        PLAYING_STEP)
      end
  | PLAYING_STEP =>
      let '(elapsed, d) := isDelayTimeElapsed now micros' (stepDelay_ p) in
      let p1 := mkPlayer (hwBackend_ p) (melody_ p) (melodyStepIdx_ p)
                         (looping_ p) d
                         (if elapsed then ADVANCE_STEP else state_ p) in
      match getCurrentStep p1 with
      | inl f => inl f
      | inr _ => inr p1
      end
  | ADVANCE_STEP => inr (advanceToNextStep p)
  end.

(** The players an application can hold: built by the constructor and
    driven by [play], [stop] and [update]. *)
Inductive reachable : BuzzerPlayer -> Prop :=
| reach_construct micros : reachable (construct micros)
| reach_play p melody loop : reachable p -> reachable (play melody loop p)
| reach_stop p : reachable p -> reachable (stop p)
| reach_update p now micros' p' :
    reachable p -> update now micros' p = inr p' -> reachable p'.

(** The representation invariant of the player: outside [IDLE] a melody
    is loaded. *)
Definition loaded (p : BuzzerPlayer) : Prop :=
  state_ p <> IDLE -> melody_ p <> None.

(** Polls in sequence, each with its two clock readings. *)
Fixpoint updates (ticks : list (Z * Z)) (p : BuzzerPlayer) : Fault + BuzzerPlayer :=
  match ticks with
  | [] => inr p
  | (now, micros') :: rest =>
      match update now micros' p with
      | inl f => inl f
      | inr p' => updates rest p'
      end
  end.

End Player.

(** ** What a builder has compiled *)

Module Compiled.
Import Builder Calls.

(** The steps [build()] exposes: the first [length_] cells behind
    [buffer_]. *)
Definition compiled (b : MelodyBuilder) : list Step :=
  match buffer_ b with
  | Some mem => take (length_ b) mem
  | None => []
  end.

Definition total_ms (l : list Step) : Z :=
  fold_right (fun s acc => durationMs s + acc) 0 l.

(** The time a score takes at the tempo of [b], note by note through
    [denomToMs_]. *)
Definition score_ms (b : MelodyBuilder) (notes : list ScoreNote) : Z :=
  fold_right
    (fun n acc => fst (denomToMs_ (denom n) (bpm (ctx_ b)) b) + acc) 0 notes.

(** One round of the [appendScore] loop. *)
Definition append_note (b : MelodyBuilder) (n : ScoreNote) : MelodyBuilder :=
  if ok_ b then addNote (hz n) (denom n) b else b.

Definition not_clear (c : call) : bool :=
  match c with CClearMelody _ => false | _ => true end.

(** [gap] takes a [uint16_t]. *)
Definition gap_typed (c : call) : Prop :=
  match c with CGap g => is_u16 g | _ => True end.

(** The ranges [setTempo] and [gap] accept. *)
Definition ctx_in_range (b : MelodyBuilder) : Prop :=
  1 <= bpm (ctx_ b) <= 300 /\ 0 <= gapMs (ctx_ b) <= 1000.

(** A [ScoreNote] with a frequency and a non-zero denominator of their
    field types. *)
Definition note_ok (n : ScoreNote) : Prop :=
  is_u16 (hz n) /\ is_u8 (denom n) /\ 1 <= denom n.

End Compiled.

(** ** presetTones/Presets.h, presetTones/PresetId.h *)

Module Presets.

Inductive PresetId : Type :=
| Success | Error | Notification | Warning | Startup | Shutdown | ButtonClick.

(** music/Notes.h and music/Durations.h, the constants the presets use. *)
Definition G4 : Z := 392.
Definition C5 : Z := 523.
Definition D5 : Z := 587.
Definition E5 : Z := 659.
Definition G5 : Z := 784.
Definition Gs5_Ab5 : Z := 831.
Definition C6 : Z := 1047.

Definition Half : Z := 2.
Definition Quarter : Z := 4.
Definition Eighth : Z := 8.
Definition Sixteenth : Z := 16.

Definition TONE_SUCCESS : list ScoreNote :=
  [mkNote C5 Eighth; mkNote E5 Eighth; mkNote G5 Quarter; mkNote C6 Half].

Definition TONE_ERROR : list ScoreNote :=
  [mkNote C6 Eighth; mkNote Gs5_Ab5 Eighth; mkNote E5 Quarter; mkNote C5 Half].

Definition TONE_NOTIFICATION : list ScoreNote :=
  [mkNote E5 Sixteenth; mkNote G5 Sixteenth; mkNote C6 Eighth; mkNote G5 Eighth].

Definition TONE_WARNING : list ScoreNote :=
  [mkNote C5 Eighth; mkNote D5 Eighth; mkNote E5 Eighth; mkNote D5 Eighth;
   mkNote C5 Quarter].

Definition TONE_STARTUP : list ScoreNote :=
  [mkNote G4 Eighth; mkNote C5 Eighth; mkNote E5 Eighth; mkNote G5 Eighth;
   mkNote C6 Quarter].

Definition TONE_SHUTDOWN : list ScoreNote :=
  [mkNote C6 Quarter; mkNote G5 Eighth; mkNote E5 Eighth; mkNote C5 Eighth;
   mkNote G4 Eighth].

Definition TONE_BUTTON_CLICK : list ScoreNote :=
  [mkNote E5 Sixteenth; mkNote G5 Sixteenth].

(** [ScoreView{TONE, sizeof(TONE) / sizeof(score::ScoreNote)}]. *)
Definition view_of (tone : list ScoreNote) : ScoreView :=
  mkView (Some tone) (length tone).

Definition success : ScoreView := view_of TONE_SUCCESS.
Definition error : ScoreView := view_of TONE_ERROR.
Definition notification : ScoreView := view_of TONE_NOTIFICATION.
Definition warning : ScoreView := view_of TONE_WARNING.
Definition startup : ScoreView := view_of TONE_STARTUP.
Definition shutdown : ScoreView := view_of TONE_SHUTDOWN.
Definition buttonClick : ScoreView := view_of TONE_BUTTON_CLICK.

Definition getPresetById (id : PresetId) : ScoreView :=
  match id with
  | Success => success
  | Error => error
  | Notification => notification
  | Warning => warning
  | Startup => startup
  | Shutdown => shutdown
  | ButtonClick => buttonClick
  end.

End Presets.

(** ** Playback sessions *)

Module Playback.
Import Timer Player.

(** The steps of a melody: the first [count] cells behind [steps]. *)
Definition melody_steps (m : Melody) : list Step :=
  match steps m with
  | Some mem => take (count m) mem
  | None => []
  end.

(** A melody [play] can be given safely: not empty, and [count] steps
    really stored behind the pointer. *)
Definition playable (m : Melody) : Prop :=
  (0 < count m)%nat
  /\ exists mem, steps m = Some mem /\ (count m <= length mem)%nat.

(** The backend call [START_STEP] makes for a step. *)
Definition step_call (s : Step) : HwCall :=
  if freqHz s >? 0 then HwStart (freqHz s) else HwStop.

(** The interval [START_STEP] arms the timer with, in microseconds. *)
Definition step_interval (s : Step) : Z := u32 (durationMs s * 1000).

(** The players of an application that only plays playable melodies. *)
Inductive driven : BuzzerPlayer -> Prop :=
| driven_construct micros : driven (construct micros)
| driven_play p melody loop :
    driven p -> playable melody -> driven (play melody loop p)
| driven_stop p : driven p -> driven (stop p)
| driven_update p now micros' p' :
    driven p -> update now micros' p = inr p' -> driven p'.

(** While playing, the index designates a step of the loaded, playable
    melody. *)
Definition in_bounds (p : BuzzerPlayer) : Prop :=
  state_ p <> IDLE ->
  exists m, melody_ p = Some m /\ playable m
            /\ (melodyStepIdx_ p < count m)%nat.

(** [k] full passes over the calls of a melody. *)
Definition laps (k : nat) (calls : list HwCall) : list HwCall :=
  concat (replicate k calls).

(** Where the player stands in the session opened by [play m loop] on a
    backend that had received [base]: the backend has since received the
    calls of the steps started so far, in order, and the final [stop()]
    once the session is over. *)
Definition follows (base : list HwCall) (m : Melody) (loop : bool)
    (p : BuzzerPlayer) : Prop :=
  let calls := map step_call (melody_steps m) in
  exists k : nat,
    (loop = false -> k = 0%nat)
    /\ match state_ p with
       | IDLE =>
           loop = false /\ melody_ p = None
           /\ hwBackend_ p = base ++ calls ++ [HwStop]
       | START_STEP =>
           melody_ p = Some m /\ looping_ p = loop
           /\ (melodyStepIdx_ p < count m)%nat
           /\ hwBackend_ p = base ++ laps k calls ++ take (melodyStepIdx_ p) calls
       | PLAYING_STEP | ADVANCE_STEP =>
           melody_ p = Some m /\ looping_ p = loop
           /\ (melodyStepIdx_ p < count m)%nat
           /\ hwBackend_ p
              = base ++ laps k calls ++ take (S (melodyStepIdx_ p)) calls
       end.

(** Three polls per step: one that starts it at reading [t], one when
    its interval has just elapsed, one that advances. *)
Fixpoint schedule (t : Z) (l : list Step) : list (Z * Z) :=
  match l with
  | [] => []
  | s :: rest =>
      let t' := u32 (t + step_interval s) in
      (t, t) :: (t', t') :: (t', t') :: schedule t' rest
  end.

End Playback.

(** * Properties *)

(** ** Machine arithmetic *)

Lemma u32_small (x : Z) : 0 <= x <= UINT32_MAX -> u32 x = x.
Proof.
  unfold u32, UINT32_MAX. intros Hx. apply Z.mod_small. lia.
Qed.

Lemma u32_range (x : Z) : 0 <= u32 x <= UINT32_MAX.
Proof.
  unfold u32, UINT32_MAX.
  pose proof (Z.mod_pos_bound x (2 ^ 32) ltac:(lia)). lia.
Qed.

(** ** Duration conversion *)

Section Conversion.
Import Builder.

Variable b : MelodyBuilder.

Lemma numerator_value : u32 (60000 * 4) = 240000.
Proof. reflexivity. Qed.

Lemma divisor_no_wrap (denom' bpm' : Z) :
  is_u8 denom' -> is_u16 bpm' -> u32 (bpm' * denom') = bpm' * denom'.
Proof.
  unfold is_u8, is_u16, UINT8_MAX, UINT16_MAX. intros Hd Hb.
  apply u32_small. unfold UINT32_MAX. nia.
Qed.

Lemma denomToMs_valid (denom' bpm' : Z) :
  is_u8 denom' -> is_u16 bpm' -> 1 <= denom' -> 1 <= bpm' ->
  denomToMs_ denom' bpm' b = (Z.max 1 (240000 / (bpm' * denom')), b).
Proof.
  intros Hd Hb Hd1 Hb1. unfold denomToMs_.
  destruct (Z.eqb_spec denom' 0) as [->|_]; [lia|].
  destruct (Z.eqb_spec bpm' 0) as [->|_]; [lia|].
  cbn [orb]. rewrite numerator_value, divisor_no_wrap by assumption.
  assert (0 <= 240000 / (bpm' * denom')) by (apply Z.div_pos; nia).
  destruct (Z.eqb_spec (240000 / (bpm' * denom')) 0) as [->|Hne].
  - reflexivity.
  - f_equal. lia.
Qed.

Lemma denomToMs_invalid (denom' bpm' : Z) :
  denom' = 0 \/ bpm' = 0 -> denomToMs_ denom' bpm' b = (0, set_ok false b).
Proof.
  intros [-> | ->]; unfold denomToMs_.
  - reflexivity.
  - rewrite orb_true_r. reflexivity.
Qed.

(** Whatever the arguments, a conversion that does not fail yields at
    least one millisecond and leaves the builder alone. *)
Lemma denomToMs_nonzero (denom' bpm' : Z) :
  denom' <> 0 -> bpm' <> 0 ->
  exists ms, denomToMs_ denom' bpm' b = (ms, b) /\ 1 <= ms.
Proof.
  intros Hd Hb. unfold denomToMs_.
  destruct (Z.eqb_spec denom' 0) as [?|_]; [contradiction|].
  destruct (Z.eqb_spec bpm' 0) as [?|_]; [contradiction|].
  cbn [orb]. eexists. split; [reflexivity|].
  destruct (Z.eqb_spec (u32 (60000 * 4) / u32 (bpm' * denom')) 0) as [_|Hne]; [lia|].
  pose proof (u32_range (bpm' * denom')) as Hr.
  assert (0 <= u32 (60000 * 4) / u32 (bpm' * denom')).
  { rewrite numerator_value.
    destruct (Z.eq_dec (u32 (bpm' * denom')) 0) as [->|?].
    - rewrite Z.div_0_r. lia.
    - apply Z.div_pos; lia. }
  lia.
Qed.

End Conversion.

(** C3.  For a denominator of at least 1 and a tempo of at least 1 (as
    [uint8_t] and [uint16_t] values) the conversion returns
    [max 1 (240000 / (bpm * denom))] milliseconds and does not touch the
    builder; a quarter, half and whole note at 120 bpm last 500, 1000
    and 2000 ms; a zero denominator or a zero tempo marks the builder
    invalid ([ok_] becomes false), the value handed back being the
    sentinel 0, and compiles nothing. *)
Theorem denomToMs_spec (b : Builder.MelodyBuilder) (denom' bpm' : Z) :
  is_u8 denom' -> is_u16 bpm' ->
  (1 <= denom' -> 1 <= bpm' ->
   Builder.denomToMs_ denom' bpm' b = (Z.max 1 (240000 / (bpm' * denom')), b))
  /\ (denom' = 0 \/ bpm' = 0 ->
      Builder.denomToMs_ denom' bpm' b = (0, Builder.set_ok false b)
      /\ Builder.ok (snd (Builder.denomToMs_ denom' bpm' b)) = false
      /\ Builder.build (snd (Builder.denomToMs_ denom' bpm' b)) = Builder.build b)
  /\ fst (Builder.denomToMs_ 4 120 b) = 500
  /\ fst (Builder.denomToMs_ 2 120 b) = 1000
  /\ fst (Builder.denomToMs_ 1 120 b) = 2000.
Proof.
  intros Hd Hb. split; [|split].
  - intros Hd1 Hb1. now apply denomToMs_valid.
  - intros Hz. rewrite (denomToMs_invalid b _ _ Hz). now repeat split.
  - now repeat split.
Qed.

Lemma denomToMs_spec_witness :
  Builder.denomToMs_ 8 76 (Builder.construct (Some [mkStep 0 0]) 1)
  = (394, Builder.construct (Some [mkStep 0 0]) 1).
Proof.
  apply (denomToMs_spec (Builder.construct (Some [mkStep 0 0]) 1) 8 76);
    unfold is_u8, is_u16, UINT8_MAX, UINT16_MAX; lia.
Defined.

(** C9.  Over the tempos 1..300 and the note values 1, 2, 4, 8, 16, 32
    the converted duration does not grow when the denominator grows nor
    when the tempo grows (taking equal tempos, or equal denominators,
    gives the monotonicity in each argument alone), and it is at least
    1 ms. *)
Theorem denomToMs_antitone (b1 b2 : Builder.MelodyBuilder) (d1 d2 t1 t2 : Z) :
  Calls.note_value d1 -> Calls.note_value d2 ->
  1 <= t1 <= 300 -> 1 <= t2 <= 300 ->
  d1 <= d2 -> t1 <= t2 ->
  fst (Builder.denomToMs_ d2 t2 b2) <= fst (Builder.denomToMs_ d1 t1 b1)
  /\ 1 <= fst (Builder.denomToMs_ d2 t2 b2).
Proof.
  intros Hd1 Hd2 Ht1 Ht2 Hd Ht.
  assert (Hr : forall d, Calls.note_value d -> 1 <= d <= 32).
  { unfold Calls.note_value. cbn [In]. intros d H. lia. }
  pose proof (Hr _ Hd1). pose proof (Hr _ Hd2).
  rewrite !denomToMs_valid
    by (unfold is_u8, is_u16, UINT8_MAX, UINT16_MAX; lia).
  cbn [fst]. split; [|lia].
  apply Z.max_le_compat_l.
  apply Z.div_le_compat_l; nia.
Qed.

Lemma denomToMs_antitone_witness :
  fst (Builder.denomToMs_ 32 300 (Builder.construct None 0))
  <= fst (Builder.denomToMs_ 4 120 (Builder.construct None 0))
  /\ 1 <= fst (Builder.denomToMs_ 32 300 (Builder.construct None 0)).
Proof.
  apply (denomToMs_antitone (Builder.construct None 0) (Builder.construct None 0)
           4 32 120 300);
    unfold Calls.note_value; cbn [In]; lia.
Defined.

(** Between 299 and 300 bpm a thirty-second note keeps its 25 ms: the
    order of C9 is not strict in the tempo. *)
Example denomToMs_plateau (b : Builder.MelodyBuilder) :
  fst (Builder.denomToMs_ 32 299 b) = 25 /\ fst (Builder.denomToMs_ 32 300 b) = 25.
Proof. split; reflexivity. Qed.

(** ** Pushing steps *)

Section Push.
Import Builder Calls.

Lemma set_ok_false_id (b : MelodyBuilder) : ok_ b = false -> set_ok false b = b.
Proof. destruct b; cbn. intros ->. reflexivity. Qed.

Lemma pushStep_full (hz' ms : Z) (b : MelodyBuilder) :
  (capacity_ b <= length_ b)%nat -> pushStep_ hz' ms b = (false, set_ok false b).
Proof.
  intros Hfull. unfold pushStep_.
  destruct (Nat.ltb_spec (length_ b) (capacity_ b)); [lia|reflexivity].
Qed.

Lemma pushStep_room (hz' ms : Z) (b : MelodyBuilder) :
  (length_ b < capacity_ b)%nat ->
  pushStep_ hz' ms b
  = (true, mkBuilder ((fun mem => <[length_ b := mkStep hz' ms]> mem) <$> buffer_ b)
                     (capacity_ b) (S (length_ b)) (ctx_ b) (ok_ b)).
Proof.
  intros Hroom. unfold pushStep_.
  destruct (Nat.ltb_spec (length_ b) (capacity_ b)); [reflexivity|lia].
Qed.

Lemma pushStep_ctx (hz' ms : Z) (b : MelodyBuilder) :
  ctx_ (snd (pushStep_ hz' ms b)) = ctx_ b.
Proof. unfold pushStep_. now destruct (Nat.ltb _ _). Qed.

Lemma pushStep_capacity (hz' ms : Z) (b : MelodyBuilder) :
  capacity_ (snd (pushStep_ hz' ms b)) = capacity_ b.
Proof. unfold pushStep_. now destruct (Nat.ltb _ _). Qed.

Lemma buffer_backed_push (hz' ms : Z) (b : MelodyBuilder) :
  buffer_backed b -> buffer_backed (snd (pushStep_ hz' ms b)).
Proof.
  intros (mem & Hmem & Hcap). unfold pushStep_, buffer_backed.
  destruct (Nat.ltb _ _); cbn.
  - rewrite Hmem. cbn. eexists. split; [reflexivity|].
    now rewrite length_insert.
  - eauto.
Qed.

(** With room in a backed buffer the pushed step lands in the cell at
    the old length, and the cells before and after it keep their
    content. *)
Lemma pushStep_cell (hz' ms : Z) (b : MelodyBuilder) (i : nat) :
  buffer_backed b -> (length_ b < capacity_ b)%nat ->
  cell (snd (pushStep_ hz' ms b)) i
  = if Nat.eqb i (length_ b) then Some (mkStep hz' ms) else cell b i.
Proof.
  intros (mem & Hmem & Hcap) Hroom. rewrite pushStep_room by assumption.
  unfold cell. cbn. rewrite Hmem. cbn.
  destruct (Nat.eqb_spec i (length_ b)) as [->|Hne].
  - apply list_lookup_insert_eq. lia.
  - apply list_lookup_insert_ne. congruence.
Qed.

End Push.

(** ** The gap split of [addNote] *)

Lemma converted_bounds (denom' bpm' : Z) :
  1 <= denom' -> 1 <= bpm' ->
  1 <= Z.max 1 (240000 / (bpm' * denom')) <= 240000.
Proof.
  intros Hd Hb. split; [lia|].
  apply Z.max_lub; [lia|].
  apply Z.div_le_upper_bound; nia.
Qed.

(** C2.  [addNote] with a frequency above zero, a convertible note
    (duration [D]) and gap [G]: the rest is [min G (D - MIN_PLAY_MS)]
    when [G > 0] and [D > MIN_PLAY_MS] and 0 otherwise, the tone gets
    [D - restMs]; the tone step is handed to [pushStep_] and, exactly
    when [restMs > 0], a silent step of [restMs] after it.  The two
    parts add up to [D], the tone keeps [MIN_PLAY_MS] whenever [D] has
    it, and with two free cells in the buffer the steps are found at the
    old length and the one after it. *)
Theorem addNote_gap_split (b : Builder.MelodyBuilder) (hz' denom' : Z) :
  0 < hz' ->
  is_u8 denom' -> 1 <= denom' ->
  is_u16 (bpm (Builder.ctx_ b)) -> 1 <= bpm (Builder.ctx_ b) ->
  is_u16 (gapMs (Builder.ctx_ b)) ->
  let D := fst (Builder.denomToMs_ denom' (bpm (Builder.ctx_ b)) b) in
  let G := gapMs (Builder.ctx_ b) in
  let restMs :=
    if (G >? 0) && (D >? MIN_PLAY_MS) then Z.min G (D - MIN_PLAY_MS) else 0 in
  let playMs := D - restMs in
  let b' := Builder.addNote hz' denom' b in
  b' = (if restMs >? 0
        then snd (Builder.pushStep_ 0 restMs (snd (Builder.pushStep_ hz' playMs b)))
        else snd (Builder.pushStep_ hz' playMs b))
  /\ playMs + restMs = D
  /\ (MIN_PLAY_MS <= D -> MIN_PLAY_MS <= playMs)
  /\ 1 <= playMs
  /\ (Calls.buffer_backed b ->
      (Builder.length_ b + 2 <= Builder.capacity_ b)%nat ->
      Calls.cell b' (Builder.length_ b) = Some (mkStep hz' playMs)
      /\ if restMs >? 0
         then Calls.cell b' (S (Builder.length_ b)) = Some (mkStep 0 restMs)
              /\ Builder.length_ b' = (Builder.length_ b + 2)%nat
         else Builder.length_ b' = S (Builder.length_ b)).
Proof.
  intros Hhz Hd8 Hd1 Hb16 Hb1 Hg16.
  rewrite denomToMs_valid by assumption. cbn [fst].
  pose proof (converted_bounds denom' (bpm (Builder.ctx_ b)) Hd1 Hb1) as HD.
  set (D := Z.max 1 (240000 / (bpm (Builder.ctx_ b) * denom'))) in *.
  unfold is_u16, UINT16_MAX in Hg16.
  set (G := gapMs (Builder.ctx_ b)) in *.
  cbv zeta.
  assert (Hcode : Builder.addNote hz' denom' b =
    let restMs := if (G >? 0) && (D >? MIN_PLAY_MS)
                  then Z.min G (D - MIN_PLAY_MS) else 0 in
    if restMs >? 0
    then snd (Builder.pushStep_ 0 restMs (snd (Builder.pushStep_ hz' (D - restMs) b)))
    else snd (Builder.pushStep_ hz' (D - restMs) b)).
  { unfold Builder.addNote. rewrite denomToMs_valid by assumption. fold D.
    destruct (Z.eqb_spec D 0) as [?|_]; [lia|].
    destruct (Z.eqb_spec hz' 0) as [?|_]; [lia|].
    destruct (Z.gtb_spec hz' 0) as [_|?]; [|lia].
    fold G. cbn [andb]. cbv zeta.
    unfold MIN_PLAY_MS in *.
    destruct (Z.gtb_spec G 0) as [HG|HG]; cbn [andb];
      [destruct (Z.gtb_spec D 10) as [HD10|HD10]|].
    - rewrite (u32_small (D - 10)) by (unfold UINT32_MAX; lia).
      destruct (Z.gtb_spec G (D - 10)) as [Hc|Hc].
      + rewrite Z.min_r by lia.
        rewrite u32_small by (unfold UINT32_MAX; lia). reflexivity.
      + rewrite Z.min_l by lia.
        rewrite u32_small by (unfold UINT32_MAX; lia). reflexivity.
    - rewrite Z.sub_0_r. reflexivity.
    - rewrite Z.sub_0_r. reflexivity. }
  rewrite Hcode. cbv zeta. clear Hcode.
  set (restMs := if (G >? 0) && (D >? MIN_PLAY_MS)
                 then Z.min G (D - MIN_PLAY_MS) else 0).
  assert (Hrest : 0 <= restMs /\ (MIN_PLAY_MS <= D -> restMs <= D - MIN_PLAY_MS)
                  /\ restMs < D).
  { unfold restMs, MIN_PLAY_MS.
    destruct (Z.gtb_spec G 0); cbn [andb]; [destruct (Z.gtb_spec D 10)|]; lia. }
  split; [reflexivity|]. split; [lia|]. split; [lia|]. split; [lia|].
  intros Hbacked Hroom.
  assert (Hroom1 : (Builder.length_ b < Builder.capacity_ b)%nat) by lia.
  pose proof (buffer_backed_push hz' (D - restMs) b Hbacked) as Hbacked1.
  destruct (Z.gtb_spec restMs 0) as [Hr|Hr].
  - assert (Hroom2 : (Builder.length_ (snd (Builder.pushStep_ hz' (D - restMs) b))
                      < Builder.capacity_ (snd (Builder.pushStep_ hz' (D - restMs) b)))%nat).
    { rewrite pushStep_room by assumption. cbn. lia. }
    assert (Hlen1 : Builder.length_ (snd (Builder.pushStep_ hz' (D - restMs) b))
                    = S (Builder.length_ b)).
    { rewrite pushStep_room by assumption. reflexivity. }
    rewrite !pushStep_cell by assumption. rewrite Hlen1.
    rewrite Nat.eqb_refl.
    destruct (Nat.eqb_spec (Builder.length_ b) (S (Builder.length_ b))); [lia|].
    rewrite Nat.eqb_refl. repeat split.
    rewrite (pushStep_room 0 restMs) by assumption. cbn. lia.
  - rewrite pushStep_cell by assumption. rewrite Nat.eqb_refl.
    split; [reflexivity|]. rewrite pushStep_room by assumption. reflexivity.
Qed.

(** The design document's example: [setTempo(76).gap(15).addNote(784, 4)]
    compiles a 774 ms tone and a 15 ms rest, 789 ms in all. *)
Lemma addNote_gap_split_witness :
  let b0 := Builder.gap 15 (Builder.setTempo 76
              (Builder.construct (Some (replicate 4 (mkStep 0 0))) 4)) in
  Calls.cell (Builder.addNote 784 4 b0) 0 = Some (mkStep 784 774)
  /\ Calls.cell (Builder.addNote 784 4 b0) 1 = Some (mkStep 0 15)
  /\ Builder.length_ (Builder.addNote 784 4 b0) = 2%nat
  /\ 774 + 15 = fst (Builder.denomToMs_ 4 76 b0).
Proof.
  intros b0.
  destruct (addNote_gap_split b0 784 4) as (_ & Hsum & _ & _ & Hcells);
    try (unfold is_u8, is_u16, UINT8_MAX, UINT16_MAX; cbn; lia).
  destruct Hcells as [Htone Hrest].
  - exists (replicate 4 (mkStep 0 0)). split; [reflexivity|cbn; lia].
  - cbn. lia.
  - split; [exact Htone|]. split; [exact (proj1 Hrest)|].
    split; [exact (proj2 Hrest)|exact Hsum].
Defined.

(** ** The capacity bound *)

Section Bounds.
Import Builder Calls.

Variable b0 : MelodyBuilder.

Lemma bounded_start : (length_ b0 <= capacity_ b0)%nat -> bounded_by b0 b0.
Proof. intros H. repeat split; auto. Qed.

Lemma bounded_set_ok (v : bool) (b : MelodyBuilder) :
  bounded_by b0 b -> bounded_by b0 (set_ok v b).
Proof. intros H. exact H. Qed.

Lemma bounded_set_ctx (c : MelodyContext) (b : MelodyBuilder) :
  bounded_by b0 b -> bounded_by b0 (set_ctx c b).
Proof. intros H. exact H. Qed.

Lemma bounded_push (hz' ms : Z) (b : MelodyBuilder) :
  bounded_by b0 b -> bounded_by b0 (snd (pushStep_ hz' ms b)).
Proof.
  intros (Hcap & Hlen & Hmem). unfold bounded_by, pushStep_.
  destruct (Nat.ltb_spec (length_ b) (capacity_ b)) as [Hroom|Hfull]; cbn.
  - split; [assumption|]. split; [lia|].
    intros i Hi. rewrite <- (Hmem i Hi). unfold cell. cbn.
    destruct (buffer_ b) as [mem|]; cbn; [|reflexivity].
    apply list_lookup_insert_ne. lia.
  - repeat split; assumption.
Qed.

Lemma bounded_denomToMs (denom' bpm' : Z) (b : MelodyBuilder) :
  bounded_by b0 b -> bounded_by b0 (snd (denomToMs_ denom' bpm' b)).
Proof.
  intros H. unfold denomToMs_. now destruct (_ || _).
Qed.

Lemma bounded_addNote (hz' denom' : Z) (b : MelodyBuilder) :
  bounded_by b0 b -> bounded_by b0 (addNote hz' denom' b).
Proof.
  intros H. unfold addNote.
  pose proof (bounded_denomToMs denom' (bpm (ctx_ b)) b H) as H1.
  destruct (denomToMs_ denom' (bpm (ctx_ b)) b) as [ms b1]. cbn [snd] in H1.
  destruct (ms =? 0); [exact H1|].
  destruct (hz' =? 0); [now apply bounded_push|].
  destruct (_ && _); cbv zeta.
  - destruct (_ >? 0); repeat apply bounded_push; assumption.
  - cbn. now apply bounded_push.
Qed.

Lemma bounded_addRest (denom' : Z) (b : MelodyBuilder) :
  bounded_by b0 b -> bounded_by b0 (addRest denom' b).
Proof.
  intros H. unfold addRest.
  pose proof (bounded_denomToMs denom' (bpm (ctx_ b)) b H) as H1.
  destruct (denomToMs_ denom' (bpm (ctx_ b)) b) as [ms b1].
  now apply bounded_push.
Qed.

(** A loop keeps whatever each of its rounds keeps. *)
Lemma for_each_indexed_keeps {S : Type} (P : S -> Prop) (n : nat)
    (func : nat -> S -> S) (s : S) :
  (forall i x, P x -> P (func i x)) -> P s -> P (for_each_indexed n func s).
Proof.
  intros Hfunc. unfold for_each_indexed.
  generalize (seq 0 n) as idx. intros idx. revert s.
  induction idx as [|i idx IH]; intros s Hs; cbn; [assumption|].
  apply IH. now apply Hfunc.
Qed.

Lemma bounded_appendScore (score : option (list ScoreNote)) (n : nat)
    (b : MelodyBuilder) :
  bounded_by b0 b -> bounded_by b0 (appendScore score n b).
Proof.
  intros H. unfold appendScore. destruct (_ && _); [exact H|].
  apply for_each_indexed_keeps; [|assumption].
  intros i x Hx. destruct (ok_ x); [|assumption].
  destruct (score ≫= _); [now apply bounded_addNote|assumption].
Qed.

Lemma bounded_appendScoreReader (reader : nat -> ScoreNote) (n : nat)
    (b : MelodyBuilder) :
  bounded_by b0 b -> bounded_by b0 (appendScoreReader reader n b).
Proof.
  intros H. unfold appendScoreReader.
  apply for_each_indexed_keeps; [|assumption].
  intros i x Hx. destruct (ok_ x); [now apply bounded_addNote|assumption].
Qed.

Lemma bounded_clearMelody (d : bool) (b : MelodyBuilder) :
  bounded_by b0 b -> bounded_by b0 (clearMelody d b).
Proof.
  intros (Hcap & Hlen & Hmem). repeat split; cbn; [assumption|lia|exact Hmem].
Qed.

Lemma bounded_exec (c : call) (b : MelodyBuilder) :
  bounded_by b0 b -> bounded_by b0 (exec c b).
Proof.
  intros H. destruct c; cbn [exec].
  - now apply bounded_clearMelody.
  - unfold setTempo. now destruct (_ || _).
  - unfold gap. now destruct (_ >? _).
  - now apply bounded_addNote.
  - now apply bounded_addRest.
  - now apply bounded_push.
  - now apply bounded_push.
  - now apply bounded_appendScore.
  - now apply bounded_appendScore.
  - now apply bounded_appendScoreReader.
Qed.

(** A group passed to [compose] is the sequence of its calls. *)
Lemma compose_run (cs : list call) (b : MelodyBuilder) :
  compose (run cs) b = run cs b.
Proof. reflexivity. Qed.

Lemma bounded_run (cs : list call) (b : MelodyBuilder) :
  bounded_by b0 b -> bounded_by b0 (run cs b).
Proof.
  revert b. induction cs as [|c cs IH]; intros b H; cbn; [assumption|].
  apply IH. now apply bounded_exec.
Qed.

End Bounds.

(** ** Overflow *)

Section Overflow.
Import Builder Calls.

Lemma pushStep_length (hz' ms : Z) (b : MelodyBuilder) :
  (length_ b < capacity_ b)%nat -> length_ (snd (pushStep_ hz' ms b)) = S (length_ b).
Proof. intros H. now rewrite pushStep_room. Qed.

Lemma pushStep_length_mono (hz' ms : Z) (b : MelodyBuilder) :
  (length_ b <= length_ (snd (pushStep_ hz' ms b)))%nat.
Proof. unfold pushStep_. destruct (Nat.ltb _ _); cbn; lia. Qed.

(** On a full buffer a call that appends leaves nothing but the cleared
    flag. *)
Lemma full_exec (c : call) (b : MelodyBuilder) :
  appends_step c = true -> bpm (ctx_ b) <> 0 ->
  (capacity_ b <= length_ b)%nat ->
  exec c b = set_ok false b.
Proof.
  intros Hc Hbpm Hfull.
  assert (Hfull' : (capacity_ (set_ok false b) <= length_ (set_ok false b))%nat)
    by exact Hfull.
  destruct c; try discriminate Hc; cbn [exec appends_step] in *.
  - destruct (Z.eqb_spec denom' 0) as [?|Hd]; [discriminate|].
    unfold addNote.
    destruct (denomToMs_nonzero b denom' (bpm (ctx_ b)) Hd Hbpm) as (ms & -> & Hms).
    destruct (Z.eqb_spec ms 0) as [?|_]; [lia|].
    destruct (hz' =? 0); [now rewrite pushStep_full|].
    destruct (_ && _); cbv zeta.
    + rewrite (pushStep_full hz') by assumption. cbn [snd].
      destruct (_ >? 0); [|reflexivity].
      now rewrite pushStep_full.
    + rewrite (pushStep_full hz') by assumption. reflexivity.
  - unfold addRest, denomToMs_. destruct (_ || _).
    + now rewrite pushStep_full.
    + now rewrite pushStep_full.
  - unfold addToneMs. now rewrite pushStep_full.
  - unfold addRestMs. now rewrite pushStep_full.
Qed.

(** With room left a call that appends makes the melody longer and keeps
    the context. *)
Lemma room_exec (c : call) (b : MelodyBuilder) :
  appends_step c = true -> bpm (ctx_ b) <> 0 ->
  (length_ b < capacity_ b)%nat ->
  (length_ b < length_ (exec c b))%nat /\ ctx_ (exec c b) = ctx_ b.
Proof.
  intros Hc Hbpm Hroom.
  destruct c; try discriminate Hc; cbn [exec appends_step] in *.
  - destruct (Z.eqb_spec denom' 0) as [?|Hd]; [discriminate|].
    unfold addNote.
    destruct (denomToMs_nonzero b denom' (bpm (ctx_ b)) Hd Hbpm) as (ms & -> & Hms).
    destruct (Z.eqb_spec ms 0) as [?|_]; [lia|].
    destruct (hz' =? 0).
    { rewrite pushStep_length, pushStep_ctx by assumption. split; [lia|reflexivity]. }
    destruct (_ && _); cbv zeta.
    + destruct (_ >? 0).
      * rewrite !pushStep_ctx. split; [|reflexivity].
        pose proof (pushStep_length_mono 0
                      (if gapMs (ctx_ b) >? u32 (ms - MIN_PLAY_MS)
                       then u32 (ms - MIN_PLAY_MS) else gapMs (ctx_ b))
                      (snd (pushStep_ hz'
                         (u32 (ms - (if gapMs (ctx_ b) >? u32 (ms - MIN_PLAY_MS)
                                     then u32 (ms - MIN_PLAY_MS)
                                     else gapMs (ctx_ b)))) b))) as Hmono.
        rewrite pushStep_length in Hmono by assumption. lia.
      * rewrite pushStep_length, pushStep_ctx by assumption.
        split; [lia|reflexivity].
    + change (0 >? 0) with false. cbv iota.
      rewrite pushStep_length, pushStep_ctx by assumption.
      split; [lia|reflexivity].
  - unfold addRest, denomToMs_. destruct (_ || _); cbv beta iota.
    + rewrite pushStep_length, pushStep_ctx by assumption.
      split; [cbn; lia|reflexivity].
    + rewrite pushStep_length, pushStep_ctx by assumption.
      split; [lia|reflexivity].
  - unfold addToneMs. rewrite pushStep_length, pushStep_ctx by assumption.
    split; [lia|reflexivity].
  - unfold addRestMs. rewrite pushStep_length, pushStep_ctx by assumption.
    split; [lia|reflexivity].
Qed.

Lemma full_run (cs : list call) (b : MelodyBuilder) :
  Forall (fun c => appends_step c = true) cs -> bpm (ctx_ b) <> 0 ->
  (capacity_ b <= length_ b)%nat -> ok_ b = false ->
  run cs b = b.
Proof.
  intros Hcs Hbpm Hfull Hok.
  induction Hcs as [|c cs Hc _ IH]; cbn; [reflexivity|].
  rewrite full_exec, set_ok_false_id by assumption. exact IH.
Qed.

Lemma overflow_run (cs : list call) (b : MelodyBuilder) :
  Forall (fun c => appends_step c = true) cs -> bpm (ctx_ b) <> 0 ->
  (length_ b <= capacity_ b)%nat ->
  (capacity_ b - length_ b < length cs)%nat ->
  ok_ (run cs b) = false /\ length_ (run cs b) = capacity_ b.
Proof.
  intros Hcs. revert b.
  induction Hcs as [|c cs Hc Hcs IH]; intros b Hbpm Hlen Hmore; cbn in *; [lia|].
  destruct (Nat.eq_dec (length_ b) (capacity_ b)) as [Hfull|Hroom].
  - rewrite full_exec by (assumption || lia).
    rewrite full_run; cbn; auto; lia.
  - destruct (room_exec c b Hc Hbpm ltac:(lia)) as [Hgrow Hctx].
    destruct (bounded_exec b c b (bounded_start b Hlen)) as (Hcap & Hlen' & _).
    destruct (IH (exec c b)) as [Hok Hfin]; try lia; try congruence.
    split; [exact Hok|]. rewrite <- Hcap. exact Hfin.
Qed.

End Overflow.

(** C4.  From a builder whose length is within its capacity (as the
    constructor and [clearMelody] leave it), after any sequence of calls
    the capacity is the same, the length is within it, and no memory
    cell at an index from the capacity onwards has changed; a step
    pushed on the full buffer is discarded ([pushStep_] answers false
    and changes only the flag); and more appending calls than there are
    free cells end with [ok() == false] and [size()] equal to the
    capacity. *)
Theorem capacity_never_exceeded (b : Builder.MelodyBuilder) (cs : list Calls.call) :
  (Builder.length_ b <= Builder.capacity_ b)%nat ->
  let b' := Calls.run cs b in
  Builder.capacity_ b' = Builder.capacity_ b
  /\ (Builder.size b' <= Builder.capacity_ b)%nat
  /\ (forall i, (Builder.capacity_ b <= i)%nat -> Calls.cell b' i = Calls.cell b i)
  /\ (forall hz' ms, Builder.size b' = Builder.capacity_ b ->
        Builder.pushStep_ hz' ms b' = (false, Builder.set_ok false b'))
  /\ (Forall (fun c => Calls.appends_step c = true) cs ->
      Calls.tempo_set b ->
      (Builder.capacity_ b - Builder.length_ b < length cs)%nat ->
      Builder.ok b' = false /\ Builder.size b' = Builder.capacity_ b).
Proof.
  intros Hlen b'.
  destruct (bounded_run b cs b (bounded_start b Hlen)) as (Hcap & Hlen' & Hmem).
  fold b' in Hcap, Hlen', Hmem. unfold Builder.size, Builder.ok.
  split; [assumption|]. split; [assumption|]. split; [assumption|]. split.
  - intros hz' ms Hfull. apply pushStep_full. lia.
  - intros Hcs Htempo Hmore. apply overflow_run; try assumption.
    unfold Calls.tempo_set in Htempo. lia.
Qed.

(** Three appending calls on a two-cell buffer that is followed in
    memory by a third cell: the melody stops at two steps, the builder
    is invalid, the third cell is untouched. *)
Lemma capacity_never_exceeded_witness :
  let b := Builder.construct (Some (replicate 3 (mkStep 7 7))) 2 in
  let b' := Calls.run [Calls.CAddToneMs 440 100; Calls.CAddNote 494 4;
                       Calls.CAddRestMs 50] b in
  Builder.ok b' = false /\ Builder.size b' = 2%nat
  /\ Calls.cell b' 2 = Some (mkStep 7 7).
Proof.
  intros b b'.
  destruct (capacity_never_exceeded b
              [Calls.CAddToneMs 440 100; Calls.CAddNote 494 4; Calls.CAddRestMs 50])
    as (_ & _ & Hmem & _ & Hover).
  - cbn. lia.
  - destruct Hover as [Hok Hsize].
    + repeat constructor.
    + unfold Calls.tempo_set. cbn. lia.
    + cbn. lia.
    + split; [exact Hok|]. split; [exact Hsize|].
      apply (Hmem 2%nat). cbn. lia.
Defined.

(** ** Calls on an invalid builder *)

Section Invalid.
Import Builder Calls.

Variable b : MelodyBuilder.
Hypothesis Hinvalid : ok_ b = false.

Lemma for_each_indexed_fixed {S : Type} (n : nat) (func : nat -> S -> S) (s : S) :
  (forall i, func i s = s) -> for_each_indexed n func s = s.
Proof.
  intros Hfix. unfold for_each_indexed.
  induction (seq 0 n) as [|i idx IH]; cbn; [reflexivity|].
  rewrite Hfix. exact IH.
Qed.

Lemma invalid_appendScore (score : option (list ScoreNote)) (n : nat) :
  appendScore score n b = b.
Proof using Hinvalid.
  unfold appendScore. destruct (_ && _); [now apply set_ok_false_id|].
  apply for_each_indexed_fixed. intros i. now rewrite Hinvalid.
Qed.

Lemma invalid_appendScoreReader (reader : nat -> ScoreNote) (n : nat) :
  appendScoreReader reader n b = b.
Proof using Hinvalid.
  unfold appendScoreReader.
  apply for_each_indexed_fixed. intros i. now rewrite Hinvalid.
Qed.

Hypothesis Hfull : (capacity_ b <= length_ b)%nat.

Lemma invalid_full_push (hz' ms : Z) : snd (pushStep_ hz' ms b) = b.
Proof using Hinvalid Hfull.
  rewrite pushStep_full by assumption. now apply set_ok_false_id.
Qed.

Lemma invalid_full_addNote (hz' denom' : Z) : addNote hz' denom' b = b.
Proof using Hinvalid Hfull.
  unfold addNote, denomToMs_. rewrite (set_ok_false_id b Hinvalid).
  destruct (_ || _); cbv beta iota.
  - cbn. now apply set_ok_false_id.
  - destruct (_ =? 0); [now apply set_ok_false_id|].
    destruct (hz' =? 0); [now apply invalid_full_push|].
    destruct (_ && _); cbv zeta.
    + rewrite invalid_full_push. destruct (_ >? 0); [|reflexivity].
      now apply invalid_full_push.
    + change (0 >? 0) with false. cbv iota. now apply invalid_full_push.
Qed.

Lemma invalid_full_addRest (denom' : Z) : addRest denom' b = b.
Proof using Hinvalid Hfull.
  unfold addRest, denomToMs_. rewrite (set_ok_false_id b Hinvalid).
  destruct (_ || _); now apply invalid_full_push.
Qed.

End Invalid.

(** C1 as stated fails: after [setTempo(0)] the builder is invalid, yet
    [addToneMs] still compiles a step, because [pushStep_] looks at the
    capacity and not at the flag. *)
Lemma invalid_call_still_appends :
  ~ (forall (c : Calls.call) (b : Builder.MelodyBuilder),
       Calls.mutating c = true -> Builder.ok b = false ->
       Builder.build (Calls.exec c b) = Builder.build b).
Proof.
  intros Hclaim.
  specialize (Hclaim (Calls.CAddToneMs 440 100)
                (Builder.setTempo 0
                   (Builder.construct (Some (replicate 2 (mkStep 0 0))) 2))
                eq_refl eq_refl).
  discriminate Hclaim.
Qed.

(** C1, amended.  On an invalid builder the array overload and the
    reader overload of [appendScore] change nothing at all; [addNote],
    [addRest], [addToneMs] and [addRestMs] change nothing when the
    buffer is full, which is the state an overflow leaves behind.  In
    each of these cases the call returns the builder itself, ready for
    the next call of the chain.  Nothing is stated of the ScoreView
    overload of [appendScore], whose body has no [return]. *)
Theorem invalid_builder_calls (b : Builder.MelodyBuilder) (c : Calls.call) :
  Builder.ok b = false ->
  Calls.mutating c = true ->
  match c with
  | Calls.CAppendScore _ _ | Calls.CAppendScoreReader _ _ => Calls.exec c b = b
  | Calls.CAppendScoreView _ => True
  | _ => (Builder.capacity_ b <= Builder.length_ b)%nat -> Calls.exec c b = b
  end.
Proof.
  unfold Builder.ok. intros Hok Hc.
  destruct c; try discriminate Hc; cbn [Calls.exec].
  - intros Hfull. now apply invalid_full_addNote.
  - intros Hfull. now apply invalid_full_addRest.
  - intros Hfull. now apply invalid_full_push.
  - intros Hfull. now apply invalid_full_push.
  - now apply invalid_appendScore.
  - exact I.
  - now apply invalid_appendScoreReader.
Qed.

(** A two-cell buffer after three raw tones is full and invalid; a
    further [addNote] leaves it as it is. *)
Lemma invalid_builder_calls_witness :
  let b := Calls.run [Calls.CAddToneMs 440 100; Calls.CAddToneMs 494 100;
                      Calls.CAddToneMs 523 100]
             (Builder.construct (Some (replicate 2 (mkStep 0 0))) 2) in
  Builder.addNote 587 4 b = b.
Proof.
  intros b.
  apply (invalid_builder_calls b (Calls.CAddNote 587 4)).
  - reflexivity.
  - reflexivity.
  - cbn. lia.
Defined.

(** ** Zero-length steps *)

(** C5 fails on the code for [addRest]: with a zero denominator the
    conversion hands back 0 and [addRest], unlike [addNote], pushes it.
    Wherever the buffer has room the cell at the old length becomes a
    silent step of 0 ms and the melody grows by it. *)
Theorem addRest_zero_denominator (b : Builder.MelodyBuilder) :
  Calls.buffer_backed b ->
  (Builder.length_ b < Builder.capacity_ b)%nat ->
  let b' := Builder.addRest 0 b in
  Calls.cell b' (Builder.length_ b) = Some (mkStep 0 0)
  /\ Builder.size b' = S (Builder.length_ b)
  /\ Builder.ok b' = false.
Proof.
  intros Hbacked Hroom b'. subst b'.
  unfold Builder.addRest. rewrite denomToMs_invalid by (now left).
  assert (Hbacked' : Calls.buffer_backed (Builder.set_ok false b)) by exact Hbacked.
  assert (Hroom' : (Builder.length_ (Builder.set_ok false b)
                    < Builder.capacity_ (Builder.set_ok false b))%nat) by exact Hroom.
  rewrite pushStep_cell by assumption.
  cbn [Builder.length_ Builder.set_ok]. rewrite Nat.eqb_refl.
  rewrite pushStep_room by assumption. now repeat split.
Qed.

(** [addRest(0)] on a fresh builder: [build()] returns a one-step melody
    whose step lasts 0 ms. *)
Lemma addRest_zero_denominator_witness :
  Builder.build (Builder.addRest 0
                   (Builder.construct (Some (replicate 2 (mkStep 440 100))) 2))
  = mkMelody (Some [mkStep 0 0; mkStep 440 100]) 1
  /\ Calls.cell (Builder.addRest 0
                   (Builder.construct (Some (replicate 2 (mkStep 440 100))) 2)) 0
     = Some (mkStep 0 0).
Proof.
  split; [reflexivity|].
  apply (addRest_zero_denominator
           (Builder.construct (Some (replicate 2 (mkStep 440 100))) 2)).
  - exists (replicate 2 (mkStep 440 100)). split; [reflexivity|cbn; lia].
  - cbn. lia.
Defined.

(** ** The reader overload of [appendScore] *)

(** C7 fails on the code: the loop of the reader overload is bounded by
    the compiled length, not by [count].  On a builder that has compiled
    nothing the reader is never called and nothing is appended, whatever
    [count] is. *)
Theorem appendScoreReader_empty_builder (reader : nat -> ScoreNote) (count' : nat)
    (b : Builder.MelodyBuilder) :
  Builder.length_ b = 0%nat ->
  Builder.appendScoreReader reader count' b = b.
Proof.
  intros Hlen. unfold Builder.appendScoreReader. rewrite Hlen. reflexivity.
Qed.

Lemma appendScoreReader_empty_builder_witness :
  Builder.size (Builder.appendScoreReader (fun _ => mkNote 440 4) 3
                  (Builder.construct (Some (replicate 8 (mkStep 0 0))) 8))
  = 0%nat.
Proof.
  rewrite (appendScoreReader_empty_builder (fun _ => mkNote 440 4) 3
             (Builder.construct (Some (replicate 8 (mkStep 0 0))) 8)).
  - reflexivity.
  - reflexivity.
Defined.

(** With one step compiled, a request for three notes reads index 0
    only and appends that single note. *)
Example appendScoreReader_one_round :
  let b := Builder.addToneMs 262 100
             (Builder.construct (Some (replicate 8 (mkStep 0 0))) 8) in
  Builder.build
    (Builder.appendScoreReader (fun i => mkNote (440 + Z.of_nat i) 4) 3 b)
  = mkMelody (Some ([mkStep 262 100; mkStep 440 500] ++ replicate 6 (mkStep 0 0))) 2.
Proof. reflexivity. Qed.

(** ** The playback state machine *)

Section Scheduler.
Import Timer Player.

Lemma isPlaying_state (p : BuzzerPlayer) : isPlaying p = true <-> state_ p <> IDLE.
Proof.
  unfold isPlaying. destruct (state_ p); cbn; split; congruence.
Qed.

Lemma loaded_construct (micros : Z) : loaded (construct micros).
Proof. intros H. now contradiction H. Qed.

Lemma loaded_stop (p : BuzzerPlayer) : loaded (stop p).
Proof. intros H. now contradiction H. Qed.

Lemma loaded_play (melody : Melody) (loop : bool) (p : BuzzerPlayer) :
  loaded (play melody loop p).
Proof. intros _. discriminate. Qed.

Lemma loaded_advance (p : BuzzerPlayer) :
  melody_ p <> None -> loaded (advanceToNextStep p).
Proof.
  intros Hm. unfold advanceToNextStep. cbn.
  destruct (melody_ p) as [m|] eqn:Em; [|contradiction].
  destruct (Nat.leb _ _); [destruct (looping_ p)|].
  - intros _. cbn. congruence.
  - apply loaded_stop.
  - intros _. cbn. congruence.
Qed.

Lemma loaded_update (now micros' : Z) (p p' : BuzzerPlayer) :
  loaded p -> update now micros' p = inr p' -> loaded p'.
Proof.
  unfold loaded, update. intros Hp Hupd.
  destruct (state_ p) eqn:Es.
  - injection Hupd as <-. rewrite Es. congruence.
  - destruct (getCurrentStep p); [discriminate|].
    injection Hupd as <-. cbn. intros _. apply Hp. discriminate.
  - destruct (isDelayTimeElapsed now micros' (stepDelay_ p)) as [elapsed d].
    destruct (getCurrentStep _); [discriminate|].
    injection Hupd as <-. cbn. intros _. apply Hp. discriminate.
  - injection Hupd as <-. apply loaded_advance. apply Hp. discriminate.
Qed.

Lemma reachable_loaded (p : BuzzerPlayer) : reachable p -> loaded p.
Proof.
  induction 1 as [micros|p melody loop _ _|p _ _|p now micros' p' _ IH Hupd].
  - apply loaded_construct.
  - apply loaded_play.
  - apply loaded_stop.
  - exact (loaded_update now micros' p p' IH Hupd).
Qed.

Lemma update_null_only_unloaded (now micros' : Z) (p : BuzzerPlayer) :
  update now micros' p = inl NullMelody -> state_ p <> IDLE /\ melody_ p = None.
Proof.
  unfold update, getCurrentStep.
  destruct (state_ p) eqn:Es; try discriminate.
  - destruct (melody_ p) as [m|]; [|now split].
    destruct (steps m ≫= _); discriminate.
  - destruct (isDelayTimeElapsed now micros' (stepDelay_ p)) as [elapsed d]. cbn.
    destruct (melody_ p) as [m|]; [|now split].
    destruct (steps m ≫= _); discriminate.
Qed.

(** At the end of the melody [advanceToNextStep] wraps when looping and
    stops otherwise. *)
Lemma advanceToNextStep_at_end (p : BuzzerPlayer) (m : Melody) :
  melody_ p = Some m -> (count m <= S (melodyStepIdx_ p))%nat ->
  advanceToNextStep p
  = if looping_ p
    then mkPlayer (hwBackend_ p) (Some m) 0%nat true (stepDelay_ p) START_STEP
    else mkPlayer (hwBackend_ p ++ [HwStop]) None 0%nat false
                  (stopDelay (stepDelay_ p)) IDLE.
Proof.
  intros Hm Hend. unfold advanceToNextStep. cbn. rewrite Hm.
  destruct (Nat.leb_spec (count m) (S (melodyStepIdx_ p))); [|lia].
  destruct (looping_ p); reflexivity.
Qed.

(** Before the end it moves to the next step. *)
Lemma advanceToNextStep_inside (p : BuzzerPlayer) (m : Melody) :
  melody_ p = Some m -> (S (melodyStepIdx_ p) < count m)%nat ->
  advanceToNextStep p
  = mkPlayer (hwBackend_ p) (Some m) (S (melodyStepIdx_ p)) (looping_ p)
             (stepDelay_ p) START_STEP.
Proof.
  intros Hm Hin. unfold advanceToNextStep. cbn. rewrite Hm.
  destruct (Nat.leb_spec (count m) (S (melodyStepIdx_ p))); [lia|].
  reflexivity.
Qed.

End Scheduler.

(** C10.  In every player reached from the constructor by [play],
    [stop] and [update], a state other than [IDLE] (that is,
    [isPlaying()]) comes with a loaded melody, and so no [update] reads
    the current step through the cleared melody pointer. *)
Theorem playing_has_melody (p : Player.BuzzerPlayer) :
  Player.reachable p ->
  (Player.isPlaying p = true -> Player.melody_ p <> None)
  /\ (forall now micros', Player.update now micros' p <> inl Player.NullMelody).
Proof.
  intros Hreach. pose proof (reachable_loaded p Hreach) as Hloaded. split.
  - intros Hplaying. apply Hloaded. now apply isPlaying_state.
  - intros now micros' Hnull.
    destruct (update_null_only_unloaded now micros' p Hnull) as [Hstate Hmelody].
    now apply (Hloaded Hstate).
Qed.

Lemma playing_has_melody_witness :
  let m := mkMelody (Some [mkStep 440 100; mkStep 0 50]) 2 in
  let p := Player.play m true (Player.stop (Player.play m false (Player.construct 0))) in
  Player.isPlaying p = true /\ Player.melody_ p <> None.
Proof.
  intros m p. split; [reflexivity|].
  apply (playing_has_melody p); [|reflexivity].
  apply Player.reach_play, Player.reach_stop, Player.reach_play,
    Player.reach_construct.
Defined.

(** C6.  With a melody loaded: an [update] in [ADVANCE_STEP] whose
    incremented index reaches the count puts a looping player back at
    index 0 in [START_STEP] without any backend call, and takes a
    non-looping player to [IDLE] with one [stop()] sent to the backend;
    the [update] before it, which saw the timer of the final step
    elapse, moved to [ADVANCE_STEP] and sent nothing. *)
Theorem end_of_melody (p : Player.BuzzerPlayer) (m : Melody) (now micros' : Z) :
  Player.melody_ p = Some m ->
  (0 < count m)%nat ->
  (Player.state_ p = ADVANCE_STEP ->
     (count m <= S (Player.melodyStepIdx_ p))%nat ->
     Player.update now micros' p
     = inr (if Player.looping_ p
            then Player.mkPlayer (Player.hwBackend_ p) (Some m) 0%nat true
                   (Player.stepDelay_ p) START_STEP
            else Player.mkPlayer (Player.hwBackend_ p ++ [Player.HwStop]) None
                   0%nat false (Timer.stopDelay (Player.stepDelay_ p)) IDLE))
  /\ (Player.state_ p = PLAYING_STEP ->
      S (Player.melodyStepIdx_ p) = count m ->
      (exists s, steps m ≫= (fun mem => mem !! Player.melodyStepIdx_ p) = Some s) ->
      Timer._disarm (Player.stepDelay_ p) = false ->
      Timer._delayTime (Player.stepDelay_ p)
      <= u32 (now - Timer._previousTime (Player.stepDelay_ p)) ->
      Player.update now micros' p
      = inr (Player.mkPlayer (Player.hwBackend_ p) (Some m)
               (Player.melodyStepIdx_ p) (Player.looping_ p)
               (Timer.restartTimer micros' (Player.stepDelay_ p)) ADVANCE_STEP)).
Proof.
  intros Hm Hcount. split.
  - intros Hstate Hend. unfold Player.update. rewrite Hstate.
    now rewrite (advanceToNextStep_at_end p m Hm Hend).
  - intros Hstate Hlast [s Hs] Harmed Helapsed.
    unfold Player.update, Timer.isDelayTimeElapsed. rewrite Hstate, Harmed.
    cbn [negb].
    destruct (Z.geb_spec (u32 (now - Timer._previousTime (Player.stepDelay_ p)))
                (Timer._delayTime (Player.stepDelay_ p))) as [_|?]; [|lia].
    unfold Player.getCurrentStep. cbn. rewrite Hm, Hs. reflexivity.
Qed.

(** The non-looping player of the design document's scenario, in
    [ADVANCE_STEP] after its second and last step: one [stop()], then
    [IDLE]. *)
Lemma end_of_melody_witness :
  let m := mkMelody (Some [mkStep 440 100; mkStep 0 50]) 2 in
  let d := Timer.mkDelay 50000 150000 false in
  Player.update 150010 150010
    (Player.mkPlayer [Player.HwStart 440; Player.HwStop] (Some m) 1%nat false d
       ADVANCE_STEP)
  = inr (Player.mkPlayer [Player.HwStart 440; Player.HwStop; Player.HwStop] None
           0%nat false (Timer.stopDelay d) IDLE).
Proof.
  intros m d.
  apply (end_of_melody
           (Player.mkPlayer [Player.HwStart 440; Player.HwStop] (Some m) 1%nat
              false d ADVANCE_STEP) m 150010 150010).
  - reflexivity.
  - cbn. lia.
  - reflexivity.
  - cbn. lia.
Defined.

(** The scenario of the design document from [play] on, polled at the
    clock readings 0, 100000 (first timer elapsed), 100001, 100002,
    150002 (second timer elapsed) and 150003. *)
Example loop_scenario :
  let m := mkMelody (Some [mkStep 440 100; mkStep 0 50]) 2 in
  let ticks := [(0, 0); (100000, 100000); (100001, 100001); (100002, 100002);
                (150002, 150002); (150003, 150003)] in
  Player.updates ticks (Player.play m true (Player.construct 0))
  = inr (Player.mkPlayer [Player.HwStart 440; Player.HwStop] (Some m) 0%nat true
           (Timer.mkDelay 50000 150002 false) START_STEP)
  /\ Player.updates ticks (Player.play m false (Player.construct 0))
     = inr (Player.mkPlayer [Player.HwStart 440; Player.HwStop; Player.HwStop]
              None 0%nat false (Timer.mkDelay 50000 150002 true) IDLE).
Proof. split; reflexivity. Qed.

(** C8 fails on the code.  [play] of a melody whose count is 0 does
    arm [START_STEP], but the first [update] performs the read
    [steps[0]]: where no step is stored there the read is undefined, and
    where one is (a builder's buffer after [clearMelody], say) that step
    is started on the backend and timed, and the player is in
    [PLAYING_STEP], not in [IDLE]. *)
Theorem play_empty_melody (mem : option (list Step)) (loop : bool)
    (p : Player.BuzzerPlayer) (now micros' : Z) :
  let m := mkMelody mem 0 in
  let p0 := Player.play m loop p in
  Player.state_ p0 = START_STEP
  /\ match mem ≫= (fun cells => cells !! 0%nat) with
     | None => Player.update now micros' p0 = inl Player.NoSuchStep
     | Some s =>
         Player.update now micros' p0
         = inr (Player.mkPlayer
                  (Player.hwBackend_ p0
                   ++ [if freqHz s >? 0 then Player.HwStart (freqHz s)
                       else Player.HwStop])
                  (Some m) 0%nat loop
                  (Timer.init now (u32 (durationMs s * 1000)) (Player.stepDelay_ p0))
                  PLAYING_STEP)
     end.
Proof.
  intros m p0. split; [reflexivity|].
  unfold Player.update, Player.getCurrentStep. cbn.
  destruct (mem ≫= _) as [s|]; [|reflexivity].
  now destruct (freqHz s >? 0).
Qed.

(** A builder compiles one tone, is cleared, and its empty melody is
    played: the first poll starts the stale 440 Hz tone for 100 ms, and
    the player reaches [IDLE] only after that time has passed. *)
Example play_cleared_builder :
  let b := Builder.clearMelody false
             (Builder.addToneMs 440 100
                (Builder.construct (Some (replicate 2 (mkStep 0 0))) 2)) in
  let p0 := Player.play (Builder.build b) false (Player.construct 0) in
  count (Builder.build b) = 0%nat
  /\ Player.update 0 0 p0
     = inr (Player.mkPlayer [Player.HwStart 440] (Some (Builder.build b)) 0%nat
              false (Timer.mkDelay 100000 0 false) PLAYING_STEP)
  /\ Player.updates [(0, 0); (99999, 99999)] p0
     = inr (Player.mkPlayer [Player.HwStart 440] (Some (Builder.build b)) 0%nat
              false (Timer.mkDelay 100000 0 false) PLAYING_STEP)
  /\ Player.updates [(0, 0); (100000, 100000); (100001, 100001)] p0
     = inr (Player.mkPlayer [Player.HwStart 440; Player.HwStop] None 0%nat
              false (Timer.mkDelay 100000 100000 true) IDLE).
Proof. repeat split. Qed.

(** Played with [loop = true] the same empty melody wraps back to
    [START_STEP] and plays the stale step again. *)
Example play_cleared_builder_loop :
  let b := Builder.clearMelody false
             (Builder.addToneMs 440 100
                (Builder.construct (Some (replicate 2 (mkStep 0 0))) 2)) in
  Player.updates [(0, 0); (100000, 100000); (100001, 100001); (100002, 100002)]
    (Player.play (Builder.build b) true (Player.construct 0))
  = inr (Player.mkPlayer [Player.HwStart 440; Player.HwStart 440]
           (Some (Builder.build b)) 0%nat true
           (Timer.mkDelay 100000 100002 false) PLAYING_STEP).
Proof. reflexivity. Qed.

(** ** Durations compiled from notation *)

Section Positive.
Import Builder Calls.

Lemma denomToMs_bounds (b : MelodyBuilder) (denom' bpm' : Z) :
  denom' <> 0 -> bpm' <> 0 ->
  exists ms, denomToMs_ denom' bpm' b = (ms, b) /\ 1 <= ms <= 240000.
Proof.
  intros Hd Hb.
  destruct (denomToMs_nonzero b denom' bpm' Hd Hb) as (ms & Heq & Hms).
  exists ms. split; [assumption|]. split; [assumption|].
  unfold denomToMs_ in Heq.
  destruct (Z.eqb_spec denom' 0) as [?|_]; [contradiction|].
  destruct (Z.eqb_spec bpm' 0) as [?|_]; [contradiction|].
  cbn [orb] in Heq. rewrite numerator_value in Heq.
  injection Heq as <-.
  pose proof (u32_range (bpm' * denom')) as Hr.
  destruct (_ =? 0); [lia|].
  destruct (Z.eq_dec (u32 (bpm' * denom')) 0) as [->|?].
  - rewrite Z.div_0_r. lia.
  - apply Z.div_le_upper_bound; nia.
Qed.

Lemma pushStep_cell_inv (hz' ms : Z) (b : MelodyBuilder) (i : nat) (s : Step) :
  cell (snd (pushStep_ hz' ms b)) i = Some s ->
  cell b i = Some s \/ s = mkStep hz' ms.
Proof.
  unfold pushStep_, cell. destruct (Nat.ltb _ _); cbn; [|now left].
  destruct (buffer_ b) as [mem|]; cbn; [|discriminate].
  intros H. apply list_lookup_insert_Some in H.
  destruct H as [(_ & <- & _)|(_ & H)]; [now right|now left].
Qed.

(** Every step [addNote] writes lasts at least 1 ms. *)
Lemma addNote_steps_positive (b : MelodyBuilder) (hz' denom' : Z)
    (i : nat) (s : Step) :
  cell (addNote hz' denom' b) i = Some s ->
  cell b i = Some s \/ 1 <= durationMs s.
Proof.
  unfold addNote.
  destruct (Z.eq_dec denom' 0) as [->|Hd].
  { rewrite denomToMs_invalid by (now left). cbn. now left. }
  destruct (Z.eq_dec (bpm (ctx_ b)) 0) as [Hb|Hb].
  { rewrite denomToMs_invalid by (now right). cbn. now left. }
  destruct (denomToMs_bounds b denom' (bpm (ctx_ b)) Hd Hb) as (D & -> & HD).
  destruct (Z.eqb_spec D 0) as [?|_]; [lia|].
  destruct (hz' =? 0).
  { intros H. apply pushStep_cell_inv in H as [H| ->]; [now left|right; cbn; lia]. }
  destruct (hz' >? 0); cbn [andb];
    [destruct (Z.gtb_spec (gapMs (ctx_ b)) 0) as [HG|HG]; cbn [andb];
     [destruct (Z.gtb_spec D MIN_PLAY_MS) as [HD10|HD10]|]|].
  - unfold MIN_PLAY_MS in *. cbv zeta.
    rewrite (u32_small (D - 10)) by (unfold UINT32_MAX; lia).
    set (restMs := if gapMs (ctx_ b) >? D - 10 then D - 10 else gapMs (ctx_ b)).
    assert (Hrest : 1 <= restMs <= D - 10).
    { unfold restMs. destruct (Z.gtb_spec (gapMs (ctx_ b)) (D - 10)); lia. }
    rewrite (u32_small (D - restMs)) by (unfold UINT32_MAX; lia).
    destruct (Z.gtb_spec restMs 0) as [_|?]; [|lia].
    intros H. apply pushStep_cell_inv in H as [H| ->]; [|right; cbn; lia].
    apply pushStep_cell_inv in H as [H| ->]; [now left|right; cbn; lia].
  - change (0 >? 0) with false. cbv iota.
    intros H. apply pushStep_cell_inv in H as [H| ->]; [now left|right; cbn; lia].
  - change (0 >? 0) with false. cbv iota.
    intros H. apply pushStep_cell_inv in H as [H| ->]; [now left|right; cbn; lia].
  - change (0 >? 0) with false. cbv iota.
    intros H. apply pushStep_cell_inv in H as [H| ->]; [now left|right; cbn; lia].
Qed.

(** So does the step of [addRest], as long as the denominator is not
    zero. *)
Lemma addRest_steps_positive (b : MelodyBuilder) (denom' : Z)
    (i : nat) (s : Step) :
  denom' <> 0 -> bpm (ctx_ b) <> 0 ->
  cell (addRest denom' b) i = Some s ->
  cell b i = Some s \/ 1 <= durationMs s.
Proof.
  intros Hd Hb. unfold addRest.
  destruct (denomToMs_bounds b denom' (bpm (ctx_ b)) Hd Hb) as (D & -> & HD).
  intros H. apply pushStep_cell_inv in H as [H| ->]; [now left|right; cbn; lia].
Qed.

(** The steps compiled from notation last at least 1 ms, the call
    [addRest(0)] apart. *)
Lemma notation_steps_positive (b : MelodyBuilder) (c : call) (i : nat) (s : Step) :
  tempo_set b ->
  match c with
  | CAddNote _ _ => True
  | CAddRest d => d <> 0
  | _ => False
  end ->
  cell (exec c b) i = Some s ->
  cell b i = Some s \/ 1 <= durationMs s.
Proof.
  unfold tempo_set. intros Ht Hc.
  destruct c; try contradiction; cbn [exec].
  - apply addNote_steps_positive.
  - apply addRest_steps_positive; [assumption|lia].
Qed.

End Positive.

(** * Further properties of the builder *)

(** ** What every appending call keeps *)

Section Keeps.
Import Builder Calls Compiled.

Variable P : MelodyBuilder -> Prop.
Hypothesis P_invalidate : forall b, P b -> P (set_ok false b).
Hypothesis P_push : forall hz' ms b, P b -> P (snd (pushStep_ hz' ms b)).

Lemma keeps_denomToMs (denom' bpm' : Z) (b : MelodyBuilder) :
  P b -> P (snd (denomToMs_ denom' bpm' b)).
Proof using P_invalidate.
  intros H. unfold denomToMs_. destruct (_ || _); cbn; auto.
Qed.

Lemma keeps_addNote (hz' denom' : Z) (b : MelodyBuilder) :
  P b -> P (addNote hz' denom' b).
Proof using P_invalidate P_push.
  intros H. unfold addNote.
  pose proof (keeps_denomToMs denom' (bpm (ctx_ b)) b H) as H1.
  destruct (denomToMs_ denom' (bpm (ctx_ b)) b) as [ms b1]. cbn [snd] in H1.
  destruct (ms =? 0); [auto|].
  destruct (hz' =? 0); [auto|].
  destruct (_ && _); cbv zeta.
  - destruct (_ >? 0); auto.
  - change (0 >? 0) with false. cbv iota. auto.
Qed.

Lemma keeps_addRest (denom' : Z) (b : MelodyBuilder) :
  P b -> P (addRest denom' b).
Proof using P_invalidate P_push.
  intros H. unfold addRest.
  pose proof (keeps_denomToMs denom' (bpm (ctx_ b)) b H) as H1.
  destruct (denomToMs_ denom' (bpm (ctx_ b)) b) as [ms b1]. auto.
Qed.

Lemma keeps_appendScore (score : option (list ScoreNote)) (n : nat)
    (b : MelodyBuilder) :
  P b -> P (appendScore score n b).
Proof using P_invalidate P_push.
  intros H. unfold appendScore. destruct (_ && _); [auto|].
  apply for_each_indexed_keeps; [|assumption].
  intros i x Hx. destruct (ok_ x); [|assumption].
  destruct (score ≫= _); [now apply keeps_addNote|assumption].
Qed.

Lemma keeps_appendScoreReader (reader : nat -> ScoreNote) (n : nat)
    (b : MelodyBuilder) :
  P b -> P (appendScoreReader reader n b).
Proof using P_invalidate P_push.
  intros H. unfold appendScoreReader.
  apply for_each_indexed_keeps; [|assumption].
  intros i x Hx. destruct (ok_ x); [now apply keeps_addNote|assumption].
Qed.

Lemma keeps_mutating (c : call) (b : MelodyBuilder) :
  mutating c = true -> P b -> P (exec c b).
Proof using P_invalidate P_push.
  intros Hc H. destruct c; try discriminate Hc; cbn [exec].
  - now apply keeps_addNote.
  - now apply keeps_addRest.
  - now apply P_push.
  - now apply P_push.
  - now apply keeps_appendScore.
  - now apply keeps_appendScore.
  - now apply keeps_appendScoreReader.
Qed.

Hypothesis P_setTempo : forall t b, P b -> P (setTempo t b).
Hypothesis P_gap : forall g b, P b -> P (gap g b).

Lemma keeps_not_clear (c : call) (b : MelodyBuilder) :
  not_clear c = true -> P b -> P (exec c b).
Proof using P_invalidate P_push P_setTempo P_gap.
  intros Hc H. destruct c; try discriminate Hc;
    try (apply keeps_mutating; [reflexivity|assumption]); cbn [exec]; auto.
Qed.

Lemma keeps_run_not_clear (cs : list call) (b : MelodyBuilder) :
  Forall (fun c => not_clear c = true) cs -> P b -> P (run cs b).
Proof using P_invalidate P_push P_setTempo P_gap.
  intros Hcs. revert b.
  induction Hcs as [|c cs Hc _ IH]; intros b H; cbn; [assumption|].
  apply IH. now apply keeps_not_clear.
Qed.

Hypothesis P_clear : forall d b, P b -> P (clearMelody d b).

Lemma keeps_exec (c : call) (b : MelodyBuilder) : P b -> P (exec c b).
Proof using P_invalidate P_push P_setTempo P_gap P_clear.
  intros H. destruct c; try (now apply keeps_not_clear). cbn [exec]. auto.
Qed.

Lemma keeps_run (cs : list call) (b : MelodyBuilder) : P b -> P (run cs b).
Proof using P_invalidate P_push P_setTempo P_gap P_clear.
  revert b. induction cs as [|c cs IH]; intros b H; cbn; [assumption|].
  apply IH. now apply keeps_exec.
Qed.

End Keeps.

(** ** Validity, storage and context across calls *)

Section Flags.
Import Builder Calls Compiled.

Lemma pushStep_ok (hz' ms : Z) (b : MelodyBuilder) :
  ok_ b = false -> ok_ (snd (pushStep_ hz' ms b)) = false.
Proof. intros H. unfold pushStep_. now destruct (Nat.ltb _ _). Qed.

Lemma sticky_run (cs : list call) (b : MelodyBuilder) :
  Forall (fun c => not_clear c = true) cs -> ok_ b = false ->
  ok_ (run cs b) = false.
Proof.
  apply (keeps_run_not_clear (fun x => ok_ x = false)).
  - reflexivity.
  - intros hz' ms x. apply pushStep_ok.
  - intros t x H. unfold setTempo. now destruct (_ || _).
  - intros g x H. unfold gap. now destruct (_ >? _).
Qed.

(** The storage a builder was constructed on: whether the pointer is
    null, and the capacity. *)
Lemma storage_run (cs : list call) (b : MelodyBuilder) :
  is_null (buffer_ (run cs b)) = is_null (buffer_ b)
  /\ capacity_ (run cs b) = capacity_ b.
Proof.
  apply (keeps_run (fun x => is_null (buffer_ x) = is_null (buffer_ b)
                             /\ capacity_ x = capacity_ b)).
  - auto.
  - intros hz' ms x [Hn Hc]. unfold pushStep_.
    destruct (Nat.ltb _ _); cbn; [|auto].
    split; [|assumption]. rewrite <- Hn. now destruct (buffer_ x).
  - intros t x H. unfold setTempo. now destruct (_ || _).
  - intros g x H. unfold gap. now destruct (_ >? _).
  - auto.
  - auto.
Qed.

Lemma prefix_run (cs : list call) (b : MelodyBuilder) :
  Forall (fun c => not_clear c = true) cs ->
  (length_ b <= length_ (run cs b))%nat
  /\ forall i, (i < length_ b)%nat -> cell (run cs b) i = cell b i.
Proof.
  intros Hcs.
  apply (keeps_run_not_clear
           (fun x => (length_ b <= length_ x)%nat
                     /\ forall i, (i < length_ b)%nat -> cell x i = cell b i));
    try assumption.
  - auto.
  - intros hz' ms x [Hlen Hcells]. unfold pushStep_.
    destruct (Nat.ltb _ _); cbn; [|auto].
    split; [lia|]. intros i Hi. rewrite <- (Hcells i Hi). unfold cell. cbn.
    destruct (buffer_ x) as [mem|]; cbn; [|reflexivity].
    apply list_lookup_insert_ne. lia.
  - intros t x H. unfold setTempo. now destruct (_ || _).
  - intros g x H. unfold gap. now destruct (_ >? _).
  - auto.
Qed.

Lemma ctx_mutating (c : call) (b : MelodyBuilder) :
  mutating c = true -> ctx_ (exec c b) = ctx_ b.
Proof.
  intros Hc.
  apply (keeps_mutating (fun x => ctx_ x = ctx_ b)); auto.
  intros hz' ms x H. now rewrite pushStep_ctx.
Qed.

Lemma ctx_in_range_exec (c : call) (b : MelodyBuilder) :
  gap_typed c -> ctx_in_range b -> ctx_in_range (exec c b).
Proof.
  unfold ctx_in_range. intros Hc Hb.
  destruct c; try (rewrite ctx_mutating by reflexivity; assumption);
    cbn [exec gap_typed] in *.
  - cbn. destruct toDefault; cbn; [lia|assumption].
  - unfold setTempo.
    destruct (Z.leb_spec bpm' 0); cbn [orb]; [assumption|].
    destruct (Z.gtb_spec bpm' 300); cbn; [assumption|lia].
  - unfold gap, is_u16 in *.
    destruct (Z.gtb_spec gapMs' 1000); cbn; [assumption|lia].
Qed.

Lemma ctx_in_range_run (cs : list call) (b : MelodyBuilder) :
  Forall gap_typed cs -> ctx_in_range b -> ctx_in_range (run cs b).
Proof.
  intros Hcs. revert b.
  induction Hcs as [|c cs Hc _ IH]; intros b H; cbn; [assumption|].
  apply IH. now apply ctx_in_range_exec.
Qed.

End Flags.

(** X1.  The tempo and the gap of a builder stay in the ranges
    [setTempo] and [gap] accept (1..300 bpm, 0..1000 ms) through every
    sequence of calls: a rejected value is not stored.  In particular
    the tempo is never zero, so a conversion fails on a zero
    denominator only. *)
Theorem context_stays_in_range (cs : list Calls.call) (b : Builder.MelodyBuilder) :
  Forall Compiled.gap_typed cs ->
  Compiled.ctx_in_range b ->
  Compiled.ctx_in_range (Calls.run cs b).
Proof. apply ctx_in_range_run. Qed.

Lemma context_stays_in_range_witness :
  Compiled.ctx_in_range
    (Calls.run [Calls.CSetTempo 301; Calls.CGap 1001; Calls.CSetTempo 76;
                Calls.CSetTempo 0; Calls.CGap 15; Calls.CAddNote 784 4]
       (Builder.construct (Some (replicate 4 (mkStep 0 0))) 4)).
Proof.
  apply context_stays_in_range.
  - repeat constructor; unfold is_u16, UINT16_MAX; lia.
  - unfold Compiled.ctx_in_range. cbn. lia.
Defined.

(** X2.  Invalidity is sticky: once [ok()] is false it stays false
    through every sequence of calls that contains no [clearMelody]. *)
Theorem invalid_is_sticky (cs : list Calls.call) (b : Builder.MelodyBuilder) :
  Forall (fun c => Compiled.not_clear c = true) cs ->
  Builder.ok b = false ->
  Builder.ok (Calls.run cs b) = false.
Proof. apply sticky_run. Qed.

Lemma invalid_is_sticky_witness :
  Builder.ok
    (Calls.run [Calls.CSetTempo 120; Calls.CGap 0; Calls.CAddNote 440 4]
       (Builder.setTempo 0 (Builder.construct (Some (replicate 4 (mkStep 0 0))) 4)))
  = false.
Proof.
  apply invalid_is_sticky.
  - repeat constructor.
  - reflexivity.
Defined.

(** X3.  On a builder that has storage (a non-null buffer and a
    capacity above zero) [clearMelody] always recovers: whatever calls
    came before, the builder is valid and empty again, on the same
    capacity. *)
Theorem clearMelody_recovers (cs : list Calls.call) (d : bool)
    (b : Builder.MelodyBuilder) :
  Builder.capacity_check (Builder.buffer_ b) (Builder.capacity_ b) = true ->
  let b' := Builder.clearMelody d (Calls.run cs b) in
  Builder.ok b' = true /\ Builder.size b' = 0%nat
  /\ Builder.capacity_ b' = Builder.capacity_ b.
Proof.
  intros Hstore b'. destruct (storage_run cs b) as [Hnull Hcap].
  unfold b', Builder.ok, Builder.size, Builder.clearMelody. cbn.
  unfold Builder.capacity_check in *. rewrite Hnull, Hcap. auto.
Qed.

Lemma clearMelody_recovers_witness :
  Builder.ok
    (Builder.clearMelody false
       (Calls.run [Calls.CSetTempo 0; Calls.CAddRest 0; Calls.CAddToneMs 440 100;
                   Calls.CAddToneMs 440 100]
          (Builder.construct (Some (replicate 2 (mkStep 0 0))) 2)))
  = true.
Proof.
  apply (clearMelody_recovers
           [Calls.CSetTempo 0; Calls.CAddRest 0; Calls.CAddToneMs 440 100;
            Calls.CAddToneMs 440 100] false
           (Builder.construct (Some (replicate 2 (mkStep 0 0))) 2)).
  reflexivity.
Defined.

(** X4.  A builder constructed on a null buffer or with capacity zero
    is invalid from the start and no call, [clearMelody] included, makes
    it valid. *)
Theorem no_storage_never_valid (cs : list Calls.call)
    (buffer : option (list Step)) (capacity : nat) :
  Builder.capacity_check buffer capacity = false ->
  Builder.ok (Calls.run cs (Builder.construct buffer capacity)) = false.
Proof.
  intros Hstore.
  apply (keeps_run
           (fun x => Builder.capacity_check (Builder.buffer_ x) (Builder.capacity_ x)
                     = false /\ Builder.ok_ x = false)).
  - intros x [Hc _]. now split.
  - intros hz' ms x [Hc Hok]. split; [|now apply pushStep_ok].
    rewrite <- Hc. unfold Builder.pushStep_.
    destruct (Nat.ltb _ _); cbn; [|reflexivity].
    unfold Builder.capacity_check. now destruct (Builder.buffer_ x).
  - intros t x H. unfold Builder.setTempo. now destruct (_ || _).
  - intros g x H. unfold Builder.gap. now destruct (_ >? _).
  - intros d x [Hc _]. cbn. now split.
  - cbn. split; [assumption|]. unfold Builder.capacity_check in *. assumption.
Qed.

Lemma no_storage_never_valid_witness :
  Builder.ok
    (Calls.run [Calls.CClearMelody true; Calls.CSetTempo 120]
       (Builder.construct (Some [mkStep 0 0]) 0))
  = false.
Proof.
  apply (no_storage_never_valid [Calls.CClearMelody true; Calls.CSetTempo 120]
           (Some [mkStep 0 0]) 0).
  reflexivity.
Defined.

(** X5.  Compiled steps are never rewritten: through every sequence of
    calls without [clearMelody] the length does not shrink and the steps
    below the old length keep their content. *)
Theorem compiled_steps_are_kept (cs : list Calls.call) (b : Builder.MelodyBuilder) :
  Forall (fun c => Compiled.not_clear c = true) cs ->
  (Builder.size b <= Builder.size (Calls.run cs b))%nat
  /\ forall i, (i < Builder.size b)%nat ->
               Calls.cell (Calls.run cs b) i = Calls.cell b i.
Proof. apply prefix_run. Qed.

Lemma compiled_steps_are_kept_witness :
  let b := Builder.addToneMs 262 100
             (Builder.construct (Some (replicate 4 (mkStep 0 0))) 4) in
  Calls.cell (Calls.run [Calls.CGap 20; Calls.CAddNote 440 4; Calls.CAddRest 0] b) 0
  = Some (mkStep 262 100).
Proof.
  intros b.
  destruct (compiled_steps_are_kept
              [Calls.CGap 20; Calls.CAddNote 440 4; Calls.CAddRest 0] b) as [_ H].
  - repeat constructor.
  - apply (H 0%nat). cbn. lia.
Defined.

(** ** Rests *)

(** X6.  With a non-zero denominator [addRest(d)] and [addNote(0, d)]
    are the same call, and both are [addRestMs] of the converted
    duration: one silent step, never split by the gap. *)
Theorem rest_calls_agree (b : Builder.MelodyBuilder) (denom' : Z) :
  is_u8 denom' -> 1 <= denom' ->
  Compiled.ctx_in_range b ->
  Builder.addRest denom' b = Builder.addNote 0 denom' b
  /\ Builder.addRest denom' b
     = Builder.addRestMs (Z.max 1 (240000 / (bpm (Builder.ctx_ b) * denom'))) b.
Proof.
  intros Hd8 Hd1 [Hbpm _].
  unfold Builder.addRest, Builder.addNote, Builder.addRestMs.
  rewrite denomToMs_valid
    by (try assumption; unfold is_u16, UINT16_MAX; lia).
  destruct (Z.eqb_spec (Z.max 1 (240000 / (bpm (Builder.ctx_ b) * denom'))) 0);
    [lia|].
  split; reflexivity.
Qed.

Lemma rest_calls_agree_witness :
  let b := Builder.gap 20 (Builder.construct (Some (replicate 2 (mkStep 0 0))) 2) in
  Builder.addRest 8 b = Builder.addNote 0 8 b
  /\ Builder.addRest 8 b = Builder.addRestMs 250 b.
Proof.
  intros b. apply (rest_calls_agree b 8).
  - unfold is_u8, UINT8_MAX. lia.
  - lia.
  - unfold Compiled.ctx_in_range. cbn. lia.
Defined.

(** ** The compiled melody *)

Section CompiledSteps.
Import Builder Calls Compiled.

Lemma total_ms_app (l1 l2 : list Step) :
  total_ms (l1 ++ l2) = total_ms l1 + total_ms l2.
Proof.
  unfold total_ms.
  induction l1 as [|s l1 IH]; cbn; [reflexivity|]. rewrite IH. lia.
Qed.

Lemma compiled_push (hz' ms : Z) (b : MelodyBuilder) :
  buffer_backed b -> (length_ b < capacity_ b)%nat ->
  compiled (snd (pushStep_ hz' ms b)) = compiled b ++ [mkStep hz' ms].
Proof.
  intros (mem & Hmem & Hcap) Hroom. rewrite pushStep_room by assumption.
  unfold compiled. cbn. rewrite Hmem. cbn.
  rewrite (take_S_r _ _ (mkStep hz' ms)).
  - now rewrite take_insert_ge by lia.
  - apply list_lookup_insert_eq. lia.
Qed.

(** The frame of a push that finds room. *)
Lemma push_frame (hz' ms : Z) (b : MelodyBuilder) :
  buffer_backed b -> (length_ b < capacity_ b)%nat ->
  let b' := snd (pushStep_ hz' ms b) in
  buffer_backed b' /\ ok_ b' = ok_ b /\ ctx_ b' = ctx_ b
  /\ capacity_ b' = capacity_ b /\ length_ b' = S (length_ b).
Proof.
  intros Hbacked Hroom b'. subst b'.
  split; [now apply buffer_backed_push|].
  rewrite pushStep_room by assumption. now repeat split.
Qed.

(** [addNote] as the pushes it makes, for a note that converts. *)
Lemma addNote_pushes (b : MelodyBuilder) (hz' denom' : Z) :
  is_u16 hz' -> is_u8 denom' -> 1 <= denom' -> ctx_in_range b ->
  let D := Z.max 1 (240000 / (bpm (ctx_ b) * denom')) in
  let restMs :=
    if (0 <? hz') && (0 <? gapMs (ctx_ b)) && (MIN_PLAY_MS <? D)
    then Z.min (gapMs (ctx_ b)) (D - MIN_PLAY_MS) else 0 in
  0 <= restMs < D
  /\ addNote hz' denom' b
     = if 0 <? restMs
       then snd (pushStep_ 0 restMs (snd (pushStep_ hz' (D - restMs) b)))
       else snd (pushStep_ hz' (D - restMs) b).
Proof.
  intros Hhz Hd8 Hd1 [Hbpm Hgap] D restMs.
  pose proof (converted_bounds denom' (bpm (ctx_ b)) Hd1 ltac:(lia)) as HD.
  fold D in HD. unfold is_u16, UINT16_MAX in Hhz.
  assert (Hrest : 0 <= restMs < D).
  { unfold restMs, MIN_PLAY_MS.
    destruct (Z.ltb_spec 0 hz'); cbn [andb]; [|lia].
    destruct (Z.ltb_spec 0 (gapMs (ctx_ b))); cbn [andb]; [|lia].
    destruct (Z.ltb_spec 10 D); lia. }
  split; [assumption|].
  unfold addNote.
  rewrite denomToMs_valid by (try assumption; unfold is_u16, UINT16_MAX; lia).
  fold D. destruct (Z.eqb_spec D 0) as [?|_]; [lia|].
  subst restMs. unfold MIN_PLAY_MS in *.
  destruct (Z.eqb_spec hz' 0) as [->|Hnz].
  { cbn [andb Z.ltb Z.compare]. cbv iota. now rewrite Z.sub_0_r. }
  destruct (Z.gtb_spec hz' 0) as [_|?]; [|lia].
  destruct (Z.ltb_spec 0 hz') as [_|?]; [|lia]. cbn [andb].
  destruct (Z.gtb_spec (gapMs (ctx_ b)) 0), (Z.ltb_spec 0 (gapMs (ctx_ b)));
    try lia; cbn [andb].
  - destruct (Z.gtb_spec D 10), (Z.ltb_spec 10 D); try lia.
    + cbv zeta. rewrite (u32_small (D - 10)) by (unfold UINT32_MAX; lia).
      destruct (Z.gtb_spec (gapMs (ctx_ b)) (D - 10)).
      * rewrite Z.min_r by lia.
        rewrite u32_small by (unfold UINT32_MAX; lia).
        destruct (Z.gtb_spec (D - 10) 0), (Z.ltb_spec 0 (D - 10));
          try lia; reflexivity.
      * rewrite Z.min_l by lia.
        rewrite u32_small by (unfold UINT32_MAX; lia).
        destruct (Z.gtb_spec (gapMs (ctx_ b)) 0),
          (Z.ltb_spec 0 (gapMs (ctx_ b))); try lia; reflexivity.
    + cbn. now rewrite Z.sub_0_r.
  - cbn. now rewrite Z.sub_0_r.
Qed.

(** With two free cells a note that converts is compiled whole: one or
    two new steps that last the converted duration together, each at
    least 1 ms, and the flag, context and capacity as before. *)
Lemma addNote_fits (b : MelodyBuilder) (hz' denom' : Z) :
  is_u16 hz' -> is_u8 denom' -> 1 <= denom' -> ctx_in_range b ->
  buffer_backed b -> (length_ b + 2 <= capacity_ b)%nat ->
  let b' := addNote hz' denom' b in
  exists new,
    compiled b' = compiled b ++ new
    /\ total_ms new = fst (denomToMs_ denom' (bpm (ctx_ b)) b)
    /\ (1 <= length new <= 2)%nat
    /\ Forall (fun s => 1 <= durationMs s) new
    /\ length_ b' = (length_ b + length new)%nat
    /\ buffer_backed b' /\ ok_ b' = ok_ b /\ ctx_ b' = ctx_ b
    /\ capacity_ b' = capacity_ b.
Proof.
  intros Hhz Hd8 Hd1 Hctx Hbacked Hroom b'. subst b'.
  destruct (addNote_pushes b hz' denom' Hhz Hd8 Hd1 Hctx) as [Hrest ->].
  destruct Hctx as [Hbpm Hgap].
  rewrite denomToMs_valid by (try assumption; unfold is_u16, UINT16_MAX; lia).
  cbn [fst].
  set (D := Z.max 1 (240000 / (bpm (ctx_ b) * denom'))) in *.
  set (restMs := if (0 <? hz') && (0 <? gapMs (ctx_ b)) && (MIN_PLAY_MS <? D)
                 then Z.min (gapMs (ctx_ b)) (D - MIN_PLAY_MS) else 0) in *.
  destruct (push_frame hz' (D - restMs) b Hbacked ltac:(lia))
    as (Hbk1 & Hok1 & Hctx1 & Hcap1 & Hlen1).
  pose proof (compiled_push hz' (D - restMs) b Hbacked ltac:(lia)) as Hc1.
  destruct (Z.ltb_spec 0 restMs) as [Hpos|Hzero].
  - destruct (push_frame 0 restMs _ Hbk1 ltac:(lia))
      as (Hbk2 & Hok2 & Hctx2 & Hcap2 & Hlen2).
    exists [mkStep hz' (D - restMs); mkStep 0 restMs].
    rewrite compiled_push, Hc1 by (assumption || lia).
    rewrite <- app_assoc. cbn [app length total_ms fold_right durationMs].
    repeat split; try lia; try congruence; try assumption.
    all: repeat constructor; cbn; lia.
  - exists [mkStep hz' (D - restMs)].
    cbn [app length total_ms fold_right durationMs].
    repeat split; try lia; try congruence; try assumption.
    all: repeat constructor; cbn; lia.
Qed.

End CompiledSteps.

(** ** [appendScore] over an array *)

Section AppendScore.
Import Builder Calls Compiled.

Lemma for_each_indexed_S {S : Type} (n : nat) (func : nat -> S -> S) (s : S) :
  for_each_indexed (Datatypes.S n) func s = func n (for_each_indexed n func s).
Proof.
  unfold for_each_indexed. rewrite seq_S, fold_left_app. reflexivity.
Qed.

Lemma appendScore_fold (notes : list ScoreNote) (n : nat) (b : MelodyBuilder) :
  (n <= length notes)%nat ->
  appendScore (Some notes) n b = fold_left append_note (take n notes) b.
Proof.
  unfold appendScore. cbn [is_null andb].
  induction n as [|n IH]; intros Hn.
  - reflexivity.
  - rewrite for_each_indexed_S, IH by lia.
    destruct (lookup_lt_is_Some_2 notes n ltac:(lia)) as [x Hx].
    rewrite (take_S_r _ _ x Hx), fold_left_app. cbn. rewrite Hx.
    reflexivity.
Qed.

Lemma append_note_invalid (notes : list ScoreNote) (b : MelodyBuilder) :
  ok_ b = false -> fold_left append_note notes b = b.
Proof.
  intros Hok. induction notes as [|n notes IH]; cbn; [reflexivity|].
  unfold append_note at 2. rewrite Hok. exact IH.
Qed.

Lemma denomToMs_value_any (denom' bpm' : Z) (b1 b2 : MelodyBuilder) :
  fst (denomToMs_ denom' bpm' b1) = fst (denomToMs_ denom' bpm' b2).
Proof. unfold denomToMs_. now destruct (_ || _). Qed.

Lemma score_ms_ctx (notes : list ScoreNote) (b1 b2 : MelodyBuilder) :
  ctx_ b1 = ctx_ b2 -> score_ms b1 notes = score_ms b2 notes.
Proof.
  intros Hctx. unfold score_ms.
  induction notes as [|n notes IH]; cbn; [reflexivity|].
  rewrite IH, Hctx. f_equal. apply denomToMs_value_any.
Qed.

(** A score whose notes all convert, compiled into a valid builder with
    two free cells per note. *)
Lemma score_fits (notes : list ScoreNote) (b : MelodyBuilder) :
  ok_ b = true -> buffer_backed b -> ctx_in_range b ->
  Forall note_ok notes ->
  (length_ b + 2 * length notes <= capacity_ b)%nat ->
  let b' := fold_left append_note notes b in
  ok_ b' = true
  /\ exists new,
       compiled b' = compiled b ++ new
       /\ total_ms new = score_ms b notes
       /\ (length notes <= length new <= 2 * length notes)%nat
       /\ Forall (fun s => 1 <= durationMs s) new
       /\ length_ b' = (length_ b + length new)%nat.
Proof.
  intros Hok Hbacked Hctx Hnotes. revert b Hok Hbacked Hctx.
  induction Hnotes as [|n notes (Hhz & Hd8 & Hd1) _ IH];
    intros b Hok Hbacked Hctx Hroom; cbn [fold_left length] in *.
  - split; [assumption|]. exists []. rewrite app_nil_r. cbn.
    repeat split; try lia. constructor.
  - assert (Hn : append_note b n = addNote (hz n) (denom n) b)
      by (unfold append_note; now rewrite Hok).
    rewrite Hn. cbn [score_ms fold_right]. fold (score_ms b notes).
    destruct (addNote_fits b (hz n) (denom n) Hhz Hd8 Hd1 Hctx Hbacked ltac:(lia))
      as (new1 & Hc1 & Ht1 & Hl1 & Hp1 & Hlen1 & Hbk1 & Hok1 & Hctx1 & Hcap1).
    destruct (IH (addNote (hz n) (denom n) b)) as (Hok2 & new2 & Hc2 & Ht2 & Hl2 & Hp2 & Hlen2).
    + congruence.
    + assumption.
    + unfold ctx_in_range in *. now rewrite Hctx1.
    + lia.
    + split; [assumption|]. exists (new1 ++ new2).
      rewrite Hc2, Hc1, <- app_assoc, total_ms_app, length_app, Ht1, Ht2.
      rewrite (score_ms_ctx notes _ b Hctx1).
      repeat split; try lia.
      * now apply Forall_app.
Qed.

End AppendScore.

(** X7.  [appendScore(score, count)] over an array of at least [count]
    notes is the loop "if [ok()] then [addNote] the note" over the first
    [count] notes, in order; with a null pointer it only marks the
    builder invalid when [count] is above zero, and with [count] zero it
    does nothing. *)
Theorem appendScore_is_a_fold (notes : list ScoreNote) (n : nat)
    (b : Builder.MelodyBuilder) :
  (n <= length notes)%nat ->
  Builder.appendScore (Some notes) n b
  = fold_left Compiled.append_note (take n notes) b
  /\ Builder.appendScore None (S n) b = Builder.set_ok false b
  /\ Builder.appendScore None 0 b = b.
Proof.
  intros Hn. split; [now apply appendScore_fold|]. split; reflexivity.
Qed.

Lemma appendScore_is_a_fold_witness :
  let b := Builder.construct (Some (replicate 4 (mkStep 0 0))) 4 in
  Builder.appendScore (Some [mkNote 440 4; mkNote 0 8; mkNote 494 2]) 2 b
  = Builder.addNote 0 8 (Builder.addNote 440 4 b).
Proof.
  intros b.
  apply (appendScore_is_a_fold [mkNote 440 4; mkNote 0 8; mkNote 494 2] 2 b).
  cbn. lia.
Defined.

(** X8.  [appendScore] truncates at the first failure: if the builder
    is invalid after a prefix of the score, the notes after that prefix
    are not compiled. *)
Theorem appendScore_truncates (pre post : list ScoreNote)
    (b : Builder.MelodyBuilder) :
  Builder.ok (Builder.appendScore (Some pre) (length pre) b) = false ->
  Builder.appendScore (Some (pre ++ post)) (length (pre ++ post)) b
  = Builder.appendScore (Some pre) (length pre) b.
Proof.
  unfold Builder.ok. rewrite !appendScore_fold by lia.
  rewrite !firstn_all, fold_left_app. apply append_note_invalid.
Qed.

Lemma appendScore_truncates_witness :
  let b := Builder.construct (Some (replicate 4 (mkStep 0 0))) 4 in
  Builder.build
    (Builder.appendScore (Some ([mkNote 440 4; mkNote 494 0] ++ [mkNote 523 4])) 3 b)
  = mkMelody (Some (mkStep 440 500 :: replicate 3 (mkStep 0 0))) 1.
Proof.
  intros b.
  pose proof (appendScore_truncates [mkNote 440 4; mkNote 494 0] [mkNote 523 4] b
                eq_refl) as H.
  cbn [length app] in H. cbn [app]. rewrite H. reflexivity.
Defined.

(** X9.  A score whose notes all have a non-zero denominator, appended
    to a valid builder that has two free cells per note: the builder
    stays valid, the steps compiled before are kept, each note gives one
    or two new steps of at least 1 ms, and the new steps last exactly as
    long as the score at the builder's tempo. *)
Theorem appendScore_fits (notes : list ScoreNote) (b : Builder.MelodyBuilder) :
  Builder.ok b = true -> Calls.buffer_backed b -> Compiled.ctx_in_range b ->
  Forall Compiled.note_ok notes ->
  (Builder.length_ b + 2 * length notes <= Builder.capacity_ b)%nat ->
  let b' := Builder.appendScore (Some notes) (length notes) b in
  Builder.ok b' = true
  /\ exists new,
       Compiled.compiled b' = Compiled.compiled b ++ new
       /\ Compiled.total_ms new = Compiled.score_ms b notes
       /\ (length notes <= length new <= 2 * length notes)%nat
       /\ Forall (fun s => 1 <= durationMs s) new
       /\ Builder.size b' = (Builder.size b + length new)%nat.
Proof.
  intros Hok Hbacked Hctx Hnotes Hroom b'. subst b'.
  rewrite appendScore_fold, firstn_all by lia.
  now apply score_fits.
Qed.

Lemma appendScore_fits_witness :
  let b := Builder.gap 20 (Builder.construct (Some (replicate 4 (mkStep 0 0))) 4) in
  Builder.ok (Builder.appendScore (Some [mkNote 440 4; mkNote 0 8]) 2 b) = true.
Proof.
  intros b.
  apply (appendScore_fits [mkNote 440 4; mkNote 0 8] b).
  - reflexivity.
  - exists (replicate 4 (mkStep 0 0)). split; [reflexivity|cbn; lia].
  - unfold Compiled.ctx_in_range. cbn. lia.
  - repeat constructor; cbn; unfold UINT16_MAX, UINT8_MAX; lia.
  - cbn. lia.
Defined.

(** ** Presets *)

Lemma preset_shape (id : Presets.PresetId) :
  exists tone,
    Presets.getPresetById id = mkView (Some tone) (length tone)
    /\ Forall Compiled.note_ok tone
    /\ Forall (fun n => 0 < hz n) tone
    /\ (length tone <= 5)%nat.
Proof.
  assert (Hnote : forall f d, 0 < f <= 1047 -> 1 <= d <= 16 ->
            Compiled.note_ok (mkNote f d) /\ 0 < hz (mkNote f d)).
  { intros f d Hf Hd.
    unfold Compiled.note_ok, is_u16, is_u8, UINT16_MAX, UINT8_MAX. cbn. lia. }
  destruct id; eexists; (split; [reflexivity|]);
    cbv delta [Presets.TONE_SUCCESS Presets.TONE_ERROR Presets.TONE_NOTIFICATION
               Presets.TONE_WARNING Presets.TONE_STARTUP Presets.TONE_SHUTDOWN
               Presets.TONE_BUTTON_CLICK];
    (split; [|split; [|cbn [length]; lia]]);
    repeat (apply List.Forall_cons;
            [apply Hnote; cbv; intuition discriminate|]);
    apply List.Forall_nil.
Qed.

(** X10.  Every preset is a view of exactly its note table, made of
    tones only, and its [data] and [count] handed to the array overload
    [appendScore(const ScoreNote*, size_t)] compile whole into any valid
    builder with ten free cells, at every tempo and gap the builder
    accepts: the builder stays valid and the new steps last as long as
    the preset's score. *)
Theorem preset_compiles (id : Presets.PresetId) (b : Builder.MelodyBuilder) :
  Builder.ok b = true -> Calls.buffer_backed b -> Compiled.ctx_in_range b ->
  (Builder.length_ b + 10 <= Builder.capacity_ b)%nat ->
  let view := Presets.getPresetById id in
  let b' := Builder.appendScore (data view) (view_count view) b in
  exists tone,
    data (Presets.getPresetById id) = Some tone
    /\ view_count (Presets.getPresetById id) = length tone
    /\ Forall (fun n => 0 < hz n) tone
    /\ Builder.ok b' = true
    /\ exists new,
         Compiled.compiled b' = Compiled.compiled b ++ new
         /\ Compiled.total_ms new = Compiled.score_ms b tone
         /\ (length tone <= length new <= 2 * length tone)%nat
         /\ Forall (fun s => 1 <= durationMs s) new.
Proof.
  intros Hok Hbacked Hctx Hroom view b'. subst b' view.
  destruct (preset_shape id) as (tone & Hview & Hnotes & Htones & Hlen).
  exists tone. rewrite Hview. cbn [data view_count].
  split; [reflexivity|]. split; [reflexivity|]. split; [assumption|].
  rewrite appendScore_fold, firstn_all by lia.
  destruct (score_fits tone b Hok Hbacked Hctx Hnotes ltac:(lia))
    as (Hok' & new & Hc & Ht & Hl & Hp & _).
  split; [assumption|]. exists new. now repeat split.
Qed.

(** The application's 64-step buffer, cleared, at 120 bpm with a 20 ms
    gap, then the start-up preset through the array overload. *)
Lemma preset_compiles_witness :
  let b := Builder.gap 20 (Builder.setTempo 120 (Builder.clearMelody true
             (Builder.construct (Some (replicate 64 (mkStep 0 0))) 64))) in
  Builder.ok
    (Builder.appendScore (data (Presets.getPresetById Presets.Startup))
       (view_count (Presets.getPresetById Presets.Startup)) b)
  = true.
Proof.
  intros b.
  destruct (preset_compiles Presets.Startup b) as (tone & _ & _ & _ & Hok & _).
  - reflexivity.
  - exists (replicate 64 (mkStep 0 0)). split; [reflexivity|cbn; lia].
  - unfold Compiled.ctx_in_range. cbn. lia.
  - cbn. lia.
  - exact Hok.
Defined.

(** * Further properties of the timer *)

Section Wraparound.
Import Timer.

Lemma u32_elapsed (prev e : Z) :
  0 <= e <= UINT32_MAX -> u32 (u32 (prev + e) - prev) = e.
Proof.
  intros He. unfold u32, UINT32_MAX in *.
  rewrite Zminus_mod_idemp_l.
  replace (prev + e - prev) with e by lia.
  apply Z.mod_small. lia.
Qed.

End Wraparound.

(** X11.  The timer is safe across the wrap of the 32-bit microsecond
    counter.  Armed with an interval at reference reading
    [_previousTime], and polled when [e] microseconds (fewer than 2^32)
    have really passed, so that the counter reads
    [(_previousTime + e) mod 2^32], it reports elapsed exactly when
    [_delayTime <= e]; it then restarts from the reading taken at the
    restart, with the interval and the armed state kept, and otherwise
    stays as it was. *)
Theorem timer_wraparound (d : Timer.Delay) (e micros' : Z) :
  Timer._disarm d = false ->
  0 <= e <= UINT32_MAX ->
  Timer.isDelayTimeElapsed (u32 (Timer._previousTime d + e)) micros' d
  = if Timer._delayTime d <=? e
    then (true, Timer.mkDelay (Timer._delayTime d) micros' false)
    else (false, d).
Proof.
  intros Harmed He. unfold Timer.isDelayTimeElapsed, Timer.restartTimer.
  rewrite Harmed, u32_elapsed by assumption. cbn [negb].
  destruct (Z.geb_spec e (Timer._delayTime d)), (Z.leb_spec (Timer._delayTime d) e);
    try lia; reflexivity.
Qed.

(** Armed 1000 us before the counter wraps with an interval of 3000 us:
    at counter reading 1999, 2999 us later, not yet; at 2000, elapsed. *)
Lemma timer_wraparound_witness :
  let d := Timer.init (UINT32_MAX - 999) 3000 (Timer.construct 0) in
  Timer.isDelayTimeElapsed 1999 1999 d = (false, d)
  /\ Timer.isDelayTimeElapsed 2000 2001 d = (true, Timer.mkDelay 3000 2001 false).
Proof.
  intros d. split.
  - apply (timer_wraparound d 2999 1999); [reflexivity|unfold UINT32_MAX; lia].
  - apply (timer_wraparound d 3000 2001); [reflexivity|unfold UINT32_MAX; lia].
Defined.

(** * Further properties of the player *)

Section Sessions.
Import Timer Player Playback.

Lemma playable_lookup (m : Melody) (i : nat) :
  playable m -> (i < count m)%nat ->
  exists mem s, steps m = Some mem /\ mem !! i = Some s
                /\ melody_steps m !! i = Some s.
Proof.
  intros (_ & mem & Hmem & Hlen) Hi.
  destruct (lookup_lt_is_Some_2 mem i ltac:(lia)) as [s Hs].
  exists mem, s. split; [assumption|]. split; [assumption|].
  unfold melody_steps. rewrite Hmem. now rewrite lookup_take_lt.
Qed.

Lemma playable_length (m : Melody) :
  playable m -> length (melody_steps m) = count m.
Proof.
  intros (_ & mem & Hmem & Hlen). unfold melody_steps. rewrite Hmem.
  rewrite length_take. lia.
Qed.

Lemma getCurrentStep_in_bounds (hw : list HwCall) (m : Melody) (i : nat)
    (loop : bool) (d : Delay) (st : State) (mem : list Step) (s : Step) :
  steps m = Some mem -> mem !! i = Some s ->
  getCurrentStep (mkPlayer hw (Some m) i loop d st) = inr s.
Proof.
  intros Hmem Hs. unfold getCurrentStep. cbn. rewrite Hmem. cbn. now rewrite Hs.
Qed.

Lemma in_bounds_update (now micros' : Z) (p : BuzzerPlayer) :
  in_bounds p ->
  exists p', update now micros' p = inr p' /\ in_bounds p'.
Proof.
  intros Hp. destruct p as [hw mel i loop d st].
  unfold in_bounds in *. cbn in Hp.
  destruct st; unfold update; cbn [state_].
  - eexists. split; [reflexivity|]. intros H. now contradiction H.
  - destruct (Hp ltac:(discriminate)) as (m & -> & Hplay & Hi).
    destruct (playable_lookup m i Hplay Hi) as (mem & s & Hmem & Hs & _).
    rewrite (getCurrentStep_in_bounds _ _ _ _ _ _ mem s Hmem Hs).
    eexists. split; [reflexivity|]. cbn. intros _. eauto.
  - destruct (Hp ltac:(discriminate)) as (m & -> & Hplay & Hi).
    destruct (playable_lookup m i Hplay Hi) as (mem & s & Hmem & Hs & _).
    destruct (isDelayTimeElapsed now micros' _) as [[|] d']; cbn;
      rewrite Hmem; cbn; rewrite Hs;
      (eexists; split; [reflexivity|]); cbn; intros _; eauto.
  - destruct (Hp ltac:(discriminate)) as (m & -> & Hplay & Hi).
    eexists. split; [reflexivity|].
    unfold advanceToNextStep. cbn.
    destruct (Nat.leb_spec (count m) (S i)); [destruct loop|]; cbn.
    + intros _. exists m. split; [reflexivity|]. split; [assumption|].
      cbn. apply Hplay.
    + intros Hn. now contradiction Hn.
    + intros _. exists m. split; [reflexivity|]. split; [assumption|].
      cbn. lia.
Qed.

Lemma driven_in_bounds (p : BuzzerPlayer) : driven p -> in_bounds p.
Proof.
  induction 1 as [micros|p melody loop _ _ Hplay|p _ _|p now micros' p' _ IH Hupd].
  - intros H. now contradiction H.
  - intros _. exists melody. split; [reflexivity|]. split; [assumption|].
    cbn. apply Hplay.
  - intros H. now contradiction H.
  - destruct (in_bounds_update now micros' p IH) as (q & Hq & Hb).
    rewrite Hupd in Hq. injection Hq as <-. exact Hb.
Qed.

Lemma updates_app (l1 l2 : list (Z * Z)) (p : BuzzerPlayer) :
  updates (l1 ++ l2) p
  = match updates l1 p with
    | inl f => inl f
    | inr p' => updates l2 p'
    end.
Proof.
  revert p. induction l1 as [|[now micros'] l1 IH]; intros p; cbn; [reflexivity|].
  destruct (update now micros' p); [reflexivity|apply IH].
Qed.

Lemma idle_updates (ticks : list (Z * Z)) (p : BuzzerPlayer) :
  state_ p = IDLE -> updates ticks p = inr p.
Proof.
  intros Hidle. induction ticks as [|[now micros'] ticks IH]; cbn; [reflexivity|].
  unfold update. rewrite Hidle. exact IH.
Qed.

End Sessions.

(** X12.  A player that is only ever given playable melodies (not
    empty, with [count] steps really stored) never reads outside its
    melody: whatever the sequence of [play], [stop] and [update] calls
    and clock readings, every [update] succeeds, and while the player is
    playing the step index is below the count of the loaded melody. *)
Theorem playback_stays_in_bounds (p : Player.BuzzerPlayer) (now micros' : Z) :
  Playback.driven p ->
  (exists p', Player.update now micros' p = inr p')
  /\ (Player.isPlaying p = true ->
      exists m, Player.melody_ p = Some m
                /\ (Player.melodyStepIdx_ p < count m)%nat).
Proof.
  intros Hdriven. pose proof (driven_in_bounds p Hdriven) as Hb. split.
  - destruct (in_bounds_update now micros' p Hb) as (p' & Hp' & _). eauto.
  - intros Hplaying. apply isPlaying_state in Hplaying.
    destruct (Hb Hplaying) as (m & Hm & _ & Hi). eauto.
Qed.

Lemma playback_stays_in_bounds_witness :
  let m := mkMelody (Some [mkStep 440 100; mkStep 0 50]) 2 in
  exists p', Player.update 7 7 (Player.play m true (Player.construct 0)) = inr p'.
Proof.
  intros m.
  apply (playback_stays_in_bounds (Player.play m true (Player.construct 0)) 7 7).
  apply Playback.driven_play; [apply Playback.driven_construct|].
  split; [cbn; lia|]. eexists. split; [reflexivity|cbn; lia].
Defined.

(** X13.  An idle player ignores polls: any number of [update] calls
    leaves it exactly as it is, with no call to the backend. *)
Theorem idle_player_ignores_polls (ticks : list (Z * Z)) (p : Player.BuzzerPlayer) :
  Player.isPlaying p = false ->
  Player.updates ticks p = inr p.
Proof.
  intros Hidle. apply idle_updates.
  unfold Player.isPlaying in Hidle. now destruct (Player.state_ p).
Qed.

Lemma idle_player_ignores_polls_witness :
  let p := Player.stop (Player.play (mkMelody (Some [mkStep 440 100]) 1) true
                          (Player.construct 0)) in
  Player.updates [(5, 5); (200000, 200000); (200001, 200001)] p = inr p.
Proof.
  intros p. apply (idle_player_ignores_polls _ p). reflexivity.
Defined.

(** ** The calls a session sends to the backend *)

Section Trace.
Import Timer Player Playback.

Variable m : Melody.
Hypothesis Hplayable : playable m.

Local Abbreviation calls := (map step_call (melody_steps m)).

Lemma calls_length : length calls = count m.
Proof using Hplayable.
  rewrite length_map. now apply playable_length.
Qed.

Lemma calls_take_S (i : nat) (s : Step) :
  melody_steps m !! i = Some s ->
  take (S i) calls = take i calls ++ [step_call s].
Proof.
  intros Hs. apply take_S_r.
  rewrite list_lookup_fmap, Hs. reflexivity.
Qed.

Lemma laps_S (k : nat) (l : list HwCall) : laps k l ++ l = laps (S k) l.
Proof.
  unfold laps. induction k as [|k IH]; cbn.
  - now rewrite app_nil_r.
  - rewrite <- app_assoc, IH. reflexivity.
Qed.

Lemma start_call (hw : list HwCall) (s : Step) :
  (if freqHz s >? 0 then hw ++ [HwStart (freqHz s)] else hw ++ [HwStop])
  = hw ++ [step_call s].
Proof. unfold step_call. now destruct (freqHz s >? 0). Qed.

Lemma follows_play (loop : bool) (p : BuzzerPlayer) :
  follows (hwBackend_ (play m loop p)) m loop (play m loop p).
Proof using Hplayable.
  exists 0%nat. split; [reflexivity|]. cbn.
  repeat split; [apply Hplayable|]. now rewrite app_nil_r.
Qed.

Lemma follows_update (base : list HwCall) (loop : bool) (now micros' : Z)
    (p p' : BuzzerPlayer) :
  follows base m loop p -> update now micros' p = inr p' ->
  follows base m loop p'.
Proof using Hplayable.
  destruct p as [hw mel i lp d st].
  intros (k & Hk & Hst) Hupd. unfold follows.
  cbn [state_ melody_ looping_ melodyStepIdx_ hwBackend_] in Hst.
  unfold update in Hupd. cbn [state_] in Hupd. destruct st.
  - injection Hupd as <-. exists k. now split.
  - destruct Hst as (-> & -> & Hi & ->).
    destruct (playable_lookup m i Hplayable Hi) as (mem & s & Hmem & Hs & Hms).
    rewrite (getCurrentStep_in_bounds _ _ _ _ _ _ mem s Hmem Hs) in Hupd.
    injection Hupd as <-. exists k. split; [assumption|]. cbn.
    repeat split; [assumption|].
    rewrite start_call, (calls_take_S i s Hms), <- !app_assoc. reflexivity.
  - destruct Hst as (-> & -> & Hi & ->).
    destruct (playable_lookup m i Hplayable Hi) as (mem & s & Hmem & Hs & Hms).
    cbn [stepDelay_] in Hupd.
    destruct (isDelayTimeElapsed now micros' d) as [[|] d']; cbn in Hupd;
      rewrite Hmem in Hupd; cbn in Hupd; rewrite Hs in Hupd;
      injection Hupd as <-; exists k; (split; [assumption|]); cbn;
      now repeat split.
  - destruct Hst as (-> & -> & Hi & ->).
    injection Hupd as <-. unfold advanceToNextStep. cbn.
    destruct (Nat.leb_spec (count m) (S i)) as [Hend|Hin]; [destruct loop|].
    + exists (S k). split; [discriminate|]. cbn.
      repeat split; [apply Hplayable|].
      rewrite firstn_all2 by (rewrite calls_length; lia).
      now rewrite laps_S, app_nil_r.
    + exists 0%nat. split; [reflexivity|]. cbn.
      rewrite (Hk eq_refl). cbn.
      rewrite firstn_all2 by (rewrite calls_length; lia).
      repeat split. now rewrite <- !app_assoc.
    + exists k. split; [assumption|]. cbn. now repeat split.
Qed.

Lemma follows_updates (base : list HwCall) (loop : bool) (ticks : list (Z * Z))
    (p p' : BuzzerPlayer) :
  follows base m loop p -> updates ticks p = inr p' -> follows base m loop p'.
Proof using Hplayable.
  revert p. induction ticks as [|[now micros'] ticks IH]; intros p Hp Hupd; cbn in Hupd.
  - injection Hupd as <-. assumption.
  - destruct (update now micros' p) as [f|q] eqn:Hq; [discriminate|].
    apply (IH q); [|assumption]. exact (follows_update base loop now micros' p q Hp Hq).
Qed.

End Trace.

(** X14.  The backend hears a session in order.  After [play] of a
    playable melody, whatever polls follow and whenever they come, the
    calls sent to the backend since [play] are [k] full passes over the
    steps' calls ([start(f)] for a tone, [stop()] for a rest) followed
    by a prefix of one more pass; without looping [k] is 0; and the
    player is idle again only when not looping, after the whole pass,
    with one final [stop()]. *)
Theorem session_trace (m : Melody) (loop : bool) (ticks : list (Z * Z))
    (p p' : Player.BuzzerPlayer) :
  Playback.playable m ->
  Player.updates ticks (Player.play m loop p) = inr p' ->
  let calls := map Playback.step_call (Playback.melody_steps m) in
  exists k j : nat,
    (j <= count m)%nat
    /\ (loop = false -> k = 0%nat)
    /\ Player.hwBackend_ p'
       = Player.hwBackend_ (Player.play m loop p)
         ++ Playback.laps k calls ++ take j calls
         ++ (if Player.isPlaying p' then [] else [Player.HwStop])
    /\ (Player.isPlaying p' = false -> loop = false /\ j = count m).
Proof.
  intros Hplayable Hupd calls.
  pose proof (follows_updates m Hplayable _ loop ticks _ p'
                (follows_play m Hplayable loop p) Hupd) as (k & Hk & Hst).
  fold calls in Hst. unfold Player.isPlaying.
  destruct (Player.state_ p'); cbn [Player.state_eqb negb].
  - destruct Hst as (Hloop & _ & Hhw). exists 0%nat, (count m).
    split; [lia|]. split; [reflexivity|]. split; [|now split].
    rewrite Hhw. cbn.
    rewrite firstn_all2
      by (unfold calls; rewrite length_map, playable_length by assumption; lia).
    reflexivity.
  - destruct Hst as (_ & _ & Hi & Hhw). exists k, (Player.melodyStepIdx_ p').
    split; [lia|]. split; [assumption|]. split; [|discriminate].
    now rewrite app_nil_r.
  - destruct Hst as (_ & _ & Hi & Hhw). exists k, (S (Player.melodyStepIdx_ p')).
    split; [lia|]. split; [assumption|]. split; [|discriminate].
    now rewrite app_nil_r.
  - destruct Hst as (_ & _ & Hi & Hhw). exists k, (S (Player.melodyStepIdx_ p')).
    split; [lia|]. split; [assumption|]. split; [|discriminate].
    now rewrite app_nil_r.
Qed.

Lemma session_trace_witness :
  let m := mkMelody (Some [mkStep 440 100; mkStep 0 50]) 2 in
  let ticks := [(0, 0); (100000, 100000); (100001, 100001); (100002, 100002)] in
  exists p' k j,
    Player.updates ticks (Player.play m false (Player.construct 0)) = inr p'
    /\ Player.hwBackend_ p'
       = Playback.laps k [Player.HwStart 440; Player.HwStop]
         ++ take j [Player.HwStart 440; Player.HwStop]
         ++ (if Player.isPlaying p' then [] else [Player.HwStop]).
Proof.
  intros m ticks.
  destruct (Player.updates ticks (Player.play m false (Player.construct 0)))
    as [f|p'] eqn:Hupd; [discriminate Hupd|].
  destruct (session_trace m false ticks (Player.construct 0) p') as (k & j & _ & _ & H & _).
  - split; [cbn; lia|]. eexists. split; [reflexivity|cbn; lia].
  - exact Hupd.
  - exists p', k, j. split; [reflexivity|exact H].
Defined.

(** ** A poll schedule that plays the melody through *)

Section Schedule.
Import Timer Player Playback.

Lemma step_polls (hw : list HwCall) (m : Melody) (i : nat) (loop : bool)
    (d : Delay) (mem : list Step) (s : Step) (t : Z) :
  steps m = Some mem -> mem !! i = Some s ->
  let t' := u32 (t + step_interval s) in
  updates [(t, t); (t', t'); (t', t')] (mkPlayer hw (Some m) i loop d START_STEP)
  = inr (advanceToNextStep
           (mkPlayer (hw ++ [step_call s]) (Some m) i loop
              (mkDelay (step_interval s) t' false) ADVANCE_STEP)).
Proof.
  intros Hmem Hs t'. cbn [updates]. unfold update at 1. cbn [state_].
  rewrite (getCurrentStep_in_bounds _ _ _ _ _ _ mem s Hmem Hs).
  rewrite start_call. cbn [melody_ melodyStepIdx_ looping_ stepDelay_].
  unfold update at 1. cbn [state_ stepDelay_].
  unfold isDelayTimeElapsed, init, restartTimer.
  cbn [_disarm _previousTime _delayTime negb].
  fold (step_interval s). subst t'.
  rewrite u32_elapsed by (unfold step_interval; apply u32_range).
  destruct (Z.geb_spec (step_interval s) (step_interval s)) as [_|?]; [|lia].
  cbn [hwBackend_ melody_ melodyStepIdx_ looping_].
  rewrite (getCurrentStep_in_bounds _ _ _ _ _ _ mem s Hmem Hs).
  reflexivity.
Qed.

Lemma schedule_plays (m : Melody) (mem : list Step) (loop : bool) :
  steps m = Some mem -> (count m <= length mem)%nat ->
  forall (rest : list Step) (s : Step) (i : nat) (hw : list HwCall)
         (d : Delay) (t : Z),
    drop i (take (count m) mem) = s :: rest ->
    exists p',
      updates (schedule t (s :: rest)) (mkPlayer hw (Some m) i loop d START_STEP)
      = inr p'
      /\ hwBackend_ p'
         = hw ++ map step_call (s :: rest) ++ (if loop then [] else [HwStop])
      /\ state_ p' = (if loop then START_STEP else IDLE)
      /\ melodyStepIdx_ p' = 0%nat
      /\ melody_ p' = (if loop then Some m else None).
Proof.
  intros Hmem Hlen rest.
  induction rest as [|s' rest IH]; intros s i hw d t Hdrop.
  - assert (Hi : take (count m) mem !! i = Some s).
    { rewrite <- (Nat.add_0_r i), <- lookup_drop, Hdrop. reflexivity. }
    assert (Hend : S i = count m).
    { pose proof (f_equal length Hdrop) as Hl.
      rewrite length_drop, length_take in Hl. cbn in Hl. lia. }
    apply lookup_take_Some in Hi as [Hs Hi].
    cbn [schedule]. rewrite (step_polls hw m i loop d mem s t Hmem Hs).
    unfold advanceToNextStep. cbn.
    destruct (Nat.leb_spec (count m) (S i)); [|lia].
    destruct loop; eexists; (split; [reflexivity|]); cbn;
      rewrite <- ?app_assoc; now repeat split.
  - assert (Hi : take (count m) mem !! i = Some s).
    { rewrite <- (Nat.add_0_r i), <- lookup_drop, Hdrop. reflexivity. }
    assert (Hin : (S i < count m)%nat).
    { pose proof (f_equal length Hdrop) as Hl.
      rewrite length_drop, length_take in Hl. cbn in Hl. lia. }
    assert (Hdrop' : drop (S i) (take (count m) mem) = s' :: rest).
    { replace (S i) with (i + 1)%nat by lia.
      rewrite <- drop_drop, Hdrop. reflexivity. }
    apply lookup_take_Some in Hi as [Hs Hi].
    change (schedule t (s :: s' :: rest))
      with ([(t, t); (u32 (t + step_interval s), u32 (t + step_interval s));
             (u32 (t + step_interval s), u32 (t + step_interval s))]
            ++ schedule (u32 (t + step_interval s)) (s' :: rest)).
    rewrite updates_app, (step_polls hw m i loop d mem s t Hmem Hs).
    unfold advanceToNextStep. cbn [melody_ melodyStepIdx_ count].
    destruct (Nat.leb_spec (count m) (S i)); [lia|].
    unfold set_state. cbn [hwBackend_ melody_ melodyStepIdx_ looping_ stepDelay_].
    destruct (IH s' (S i) (hw ++ [step_call s])
                (mkDelay (step_interval s) (u32 (t + step_interval s)) false)
                (u32 (t + step_interval s)) Hdrop')
      as (p' & Hupd & Hhw & Hrest).
    exists p'. split; [assumption|]. split; [|assumption].
    rewrite Hhw, <- app_assoc. reflexivity.
Qed.

End Schedule.

(** X15.  A playable melody is played through.  Polled three times per
    step (at the start, when the step's interval has just elapsed, and
    once more to advance), the player sends the backend the call of
    every step in order; without looping it then sends one [stop()] and
    is idle, with looping it is back at step 0, ready to start again. *)
Theorem melody_is_played_through (m : Melody) (loop : bool)
    (p : Player.BuzzerPlayer) (t : Z) :
  Playback.playable m ->
  exists p',
    Player.updates (Playback.schedule t (Playback.melody_steps m))
      (Player.play m loop p) = inr p'
    /\ Player.hwBackend_ p'
       = Player.hwBackend_ (Player.play m loop p)
         ++ map Playback.step_call (Playback.melody_steps m)
         ++ (if loop then [] else [Player.HwStop])
    /\ Player.state_ p' = (if loop then START_STEP else IDLE)
    /\ Player.melodyStepIdx_ p' = 0%nat.
Proof.
  intros (Hcount & mem & Hmem & Hlen).
  unfold Playback.melody_steps. rewrite Hmem.
  destruct (take (count m) mem) as [|s rest] eqn:Htake.
  { pose proof (f_equal length Htake) as Hl. rewrite length_take in Hl.
    cbn in Hl. lia. }
  unfold Player.play.
  destruct (schedule_plays m mem loop Hmem Hlen rest s 0%nat
              (Player.hwBackend_ (if Player.isPlaying p then Player.stop p else p))
              (Player.stepDelay_ (if Player.isPlaying p then Player.stop p else p))
              t)
    as (p' & Hupd & Hhw & Hst & Hidx & _).
  - rewrite Htake. reflexivity.
  - exists p'. now repeat split.
Qed.

Lemma melody_is_played_through_witness :
  let m := mkMelody (Some [mkStep 440 100; mkStep 0 50; mkStep 7 7]) 2 in
  exists p',
    Player.updates (Playback.schedule 4294900000 (Playback.melody_steps m))
      (Player.play m false (Player.construct 0)) = inr p'
    /\ Player.hwBackend_ p' = [Player.HwStart 440; Player.HwStop; Player.HwStop]
    /\ Player.state_ p' = IDLE.
Proof.
  intros m.
  destruct (melody_is_played_through m false (Player.construct 0) 4294900000)
    as (p' & Hupd & Hhw & Hst & _).
  - split; [cbn; lia|]. eexists. split; [reflexivity|cbn; lia].
  - exists p'. split; [exact Hupd|]. split; [exact Hhw|exact Hst].
Defined.

(** X16.  A step lasts its duration.  For a step of at most 4294967 ms
    (so that its microseconds fit 32 bits), started by a poll at counter
    reading [t]: a later poll, [e] microseconds after the start, leaves
    the player exactly as it is while [e] is below
    [1000 * durationMs], and moves it to [ADVANCE_STEP] as soon as [e]
    reaches it; neither poll calls the backend. *)
Theorem step_lasts_its_duration (p : Player.BuzzerPlayer) (m : Melody)
    (mem : list Step) (s : Step) (t e micros' : Z) :
  Player.state_ p = START_STEP ->
  Player.melody_ p = Some m ->
  steps m = Some mem -> mem !! Player.melodyStepIdx_ p = Some s ->
  0 <= durationMs s <= 4294967 ->
  0 <= e <= UINT32_MAX ->
  let p1 := Player.mkPlayer (Player.hwBackend_ p ++ [Playback.step_call s])
              (Some m) (Player.melodyStepIdx_ p) (Player.looping_ p)
              (Timer.mkDelay (durationMs s * 1000) t false) PLAYING_STEP in
  Player.update t t p = inr p1
  /\ Player.update (u32 (t + e)) micros' p1
     = inr (if durationMs s * 1000 <=? e
            then Player.mkPlayer (Player.hwBackend_ p1) (Some m)
                   (Player.melodyStepIdx_ p) (Player.looping_ p)
                   (Timer.mkDelay (durationMs s * 1000) micros' false)
                   ADVANCE_STEP
            else p1).
Proof.
  intros Hst Hm Hmem Hs Hdur He p1. subst p1.
  destruct p as [hw mel i loop d st]. cbn in Hst, Hm, Hs. subst st mel.
  cbn [Player.hwBackend_ Player.melodyStepIdx_ Player.looping_].
  split.
  - unfold Player.update. cbn [Player.state_].
    rewrite (getCurrentStep_in_bounds _ _ _ _ _ _ mem s Hmem Hs).
    rewrite start_call. unfold Timer.init.
    rewrite u32_small by (unfold UINT32_MAX; lia). reflexivity.
  - unfold Player.update. cbn [Player.state_ Player.stepDelay_].
    unfold Timer.isDelayTimeElapsed, Timer.restartTimer.
    cbn [Timer._disarm Timer._previousTime Timer._delayTime negb].
    rewrite u32_elapsed by assumption.
    destruct (Z.geb_spec e (durationMs s * 1000)),
      (Z.leb_spec (durationMs s * 1000) e); try lia;
      cbn [Player.hwBackend_ Player.melody_ Player.melodyStepIdx_ Player.looping_];
      rewrite (getCurrentStep_in_bounds _ _ _ _ _ _ mem s Hmem Hs); reflexivity.
Qed.

Lemma step_lasts_its_duration_witness :
  let m := mkMelody (Some [mkStep 440 100]) 1 in
  let p1 := Player.mkPlayer [Player.HwStart 440] (Some m) 0%nat false
              (Timer.mkDelay 100000 4294960000 false) PLAYING_STEP in
  Player.update 4294960000 4294960000 (Player.play m false (Player.construct 0))
  = inr p1
  /\ Player.update (u32 (4294960000 + 99999)) 5 p1 = inr p1.
Proof.
  intros m p1.
  apply (step_lasts_its_duration (Player.play m false (Player.construct 0)) m
           [mkStep 440 100] (mkStep 440 100) 4294960000 99999 5);
    try reflexivity; cbn; unfold UINT32_MAX; lia.
Defined.

(** * From the builder to the player *)

Section Handover.
Import Builder Calls Compiled.

Lemma buffer_backed_run (cs : list call) (b : MelodyBuilder) :
  buffer_backed b -> buffer_backed (run cs b).
Proof.
  apply (keeps_run buffer_backed); auto.
  - intros hz' ms x. apply buffer_backed_push.
  - intros t x H. unfold setTempo. now destruct (_ || _).
  - intros g x H. unfold gap. now destruct (_ >? _).
Qed.

End Handover.

(** X17.  The raw calls compile the step as given, with no floor on
    the duration: with a free cell [addToneMs(hz, ms)] adds exactly the
    step [(hz, ms)] after the steps compiled so far, also for [ms = 0],
    and leaves the validity flag alone; [addRestMs(ms)] does the same
    with frequency 0. *)
Theorem raw_calls_compile_as_given (b : Builder.MelodyBuilder) (hz' ms : Z) :
  Calls.buffer_backed b ->
  (Builder.length_ b < Builder.capacity_ b)%nat ->
  Compiled.compiled (Builder.addToneMs hz' ms b)
  = Compiled.compiled b ++ [mkStep hz' ms]
  /\ Builder.ok (Builder.addToneMs hz' ms b) = Builder.ok b
  /\ Compiled.compiled (Builder.addRestMs ms b)
     = Compiled.compiled b ++ [mkStep 0 ms]
  /\ Builder.ok (Builder.addRestMs ms b) = Builder.ok b.
Proof.
  intros Hbacked Hroom. unfold Builder.addToneMs, Builder.addRestMs, Builder.ok.
  rewrite !compiled_push by assumption.
  destruct (push_frame hz' ms b Hbacked Hroom) as (_ & Hok1 & _).
  destruct (push_frame 0 ms b Hbacked Hroom) as (_ & Hok2 & _).
  now repeat split.
Qed.

Lemma raw_calls_compile_as_given_witness :
  let b := Builder.construct (Some (replicate 2 (mkStep 9 9))) 2 in
  Compiled.compiled (Builder.addToneMs 440 0 b) = [mkStep 440 0].
Proof.
  intros b. apply (raw_calls_compile_as_given b 440 0).
  - exists (replicate 2 (mkStep 9 9)). split; [reflexivity|cbn; lia].
  - cbn. lia.
Defined.

(** X18.  What a builder on real storage builds can be played: after
    any sequence of calls on a builder constructed over at least
    [capacity] cells, a melody of one step or more returned by [build()]
    is playable (its [count] steps are all stored behind [steps]), and
    its steps are the compiled ones. *)
Theorem built_melody_is_playable (cs : list Calls.call) (mem : list Step)
    (capacity : nat) :
  (capacity <= length mem)%nat ->
  let b := Calls.run cs (Builder.construct (Some mem) capacity) in
  (0 < Builder.size b)%nat ->
  Playback.playable (Builder.build b)
  /\ Playback.melody_steps (Builder.build b) = Compiled.compiled b.
Proof.
  intros Hcap b Hsize.
  assert (Hbacked : Calls.buffer_backed (Builder.construct (Some mem) capacity)).
  { exists mem. now split. }
  pose proof (buffer_backed_run cs _ Hbacked) as (mem' & Hmem' & Hlen').
  destruct (bounded_run _ cs _ (bounded_start (Builder.construct (Some mem) capacity)
                                  ltac:(cbn; lia)))
    as (Hc & Hl & _).
  fold b in Hmem', Hlen', Hc, Hl. cbn in Hc, Hl.
  split; [|reflexivity].
  split; [exact Hsize|]. exists mem'. split; [exact Hmem'|].
  unfold Builder.build. cbn. lia.
Qed.

Lemma built_melody_is_playable_witness :
  Playback.playable
    (Builder.build
       (Calls.run [Calls.CSetTempo 76; Calls.CGap 15; Calls.CAddNote 784 4]
          (Builder.construct (Some (replicate 4 (mkStep 0 0))) 4))).
Proof.
  apply (built_melody_is_playable
           [Calls.CSetTempo 76; Calls.CGap 15; Calls.CAddNote 784 4]
           (replicate 4 (mkStep 0 0)) 4).
  - cbn. lia.
  - vm_compute. lia.
Defined.

(** X19.  Overflow in the middle of a note.  When only one cell is free
    and [addNote] splits a tone into tone and gap, the shortened tone is
    compiled, the rest that should follow it is dropped, and the builder
    is invalid: the melody ends on a tone that is shorter than its note
    by the gap. *)
Theorem addNote_overflow_drops_gap (b : Builder.MelodyBuilder) (hz' denom' : Z) :
  0 < hz' -> is_u16 hz' -> is_u8 denom' -> 1 <= denom' ->
  Compiled.ctx_in_range b -> 0 < gapMs (Builder.ctx_ b) ->
  Calls.buffer_backed b ->
  S (Builder.length_ b) = Builder.capacity_ b ->
  let D := fst (Builder.denomToMs_ denom' (bpm (Builder.ctx_ b)) b) in
  MIN_PLAY_MS < D ->
  let restMs := Z.min (gapMs (Builder.ctx_ b)) (D - MIN_PLAY_MS) in
  let b' := Builder.addNote hz' denom' b in
  Compiled.compiled b' = Compiled.compiled b ++ [mkStep hz' (D - restMs)]
  /\ 0 < restMs
  /\ Builder.ok b' = false
  /\ Builder.size b' = Builder.capacity_ b.
Proof.
  intros Hpos Hhz Hd8 Hd1 Hctx Hgap Hbacked Hlast.
  rewrite denomToMs_valid
    by (try assumption; destruct Hctx; unfold is_u16, UINT16_MAX; lia).
  cbn [fst]. intros HD.
  destruct (addNote_pushes b hz' denom' Hhz Hd8 Hd1 Hctx) as [_ Hcode].
  cbv zeta in Hcode |- *. rewrite Hcode. clear Hcode.
  destruct (Z.ltb_spec 0 hz') as [_|?]; [|lia].
  destruct (Z.ltb_spec 0 (gapMs (Builder.ctx_ b))) as [_|?]; [|lia].
  destruct (Z.ltb_spec MIN_PLAY_MS
              (Z.max 1 (240000 / (bpm (Builder.ctx_ b) * denom')))) as [_|?]; [|lia].
  cbn [andb].
  set (D := Z.max 1 (240000 / (bpm (Builder.ctx_ b) * denom'))) in *.
  set (restMs := Z.min (gapMs (Builder.ctx_ b)) (D - MIN_PLAY_MS)).
  assert (Hrest : 0 < restMs) by (unfold restMs; lia).
  destruct (Z.ltb_spec 0 restMs) as [_|?]; [|lia].
  destruct (push_frame hz' (D - restMs) b Hbacked ltac:(lia))
    as (Hbk1 & Hok1 & Hctx1 & Hcap1 & Hlen1).
  rewrite (pushStep_full 0 restMs) by lia.
  unfold Builder.ok, Builder.size. cbn [snd].
  change (Compiled.compiled (Builder.set_ok false ?x)) with (Compiled.compiled x).
  rewrite compiled_push by (assumption || lia).
  cbn [Builder.ok_ Builder.set_ok Builder.length_]. rewrite Hlen1.
  now repeat split.
Qed.

Lemma addNote_overflow_drops_gap_witness :
  let b := Builder.gap 20 (Builder.construct (Some (replicate 1 (mkStep 0 0))) 1) in
  Compiled.compiled (Builder.addNote 440 4 b) = [mkStep 440 480]
  /\ Builder.ok (Builder.addNote 440 4 b) = false.
Proof.
  intros b.
  assert (Hctx : Compiled.ctx_in_range b)
    by (unfold Compiled.ctx_in_range; cbn; lia).
  assert (Hbacked : Calls.buffer_backed b)
    by (exists (replicate 1 (mkStep 0 0)); split; [reflexivity|cbn; lia]).
  destruct (addNote_overflow_drops_gap b 440 4) as (Hc & _ & Hok & _);
    try assumption;
    try (unfold is_u16, is_u8, UINT16_MAX, UINT8_MAX, MIN_PLAY_MS; cbn; lia).
  - vm_compute. reflexivity.
  - split; [exact Hc|exact Hok].
Defined.
